(** * ctrlsim: link-balancing SDN controller simulator

    A shallow embedding of [ctrlsim.py] (Python 2, networkx 1.x):
    [LinkBalancerCtrl.handle_request], the resource ledger
    ([allocate_resources] / [free_resources]), the balance metrics
    ([rmse_links] / [rmse_servers]) and the timestep loop ([run]).

    Numbers.  Capacities, utilisations and request sizes are Python floats.
    The embedding of the whole program computes with exact rationals ([Qc])
    and the real square root, so metric values live in [R]; it carries the
    statements that do not depend on rounding.  The resource ledger is given a
    second time over IEEE 754 binary64 values ([Binary64]), with the float
    operations of the source; it carries the statements that do.  A statement
    about the rational ledger that needs exact sums asks for integer-valued
    amounts of magnitude at most 2^52, on which binary64 addition and
    subtraction are exact.

    Exceptions.  A Python exception is a value of [exn]; code that can raise
    returns [res A].  Code that mutates an object and can raise returns the
    outcome together with the object as it is left behind. *)

From Stdlib Require Import PrimFloat.
From Stdlib Require Import QArith Qcanon Reals Qreals Lra Lqa.
From stdpp Require Import gmap strings list fin_maps numbers.

Local Open Scope Qc_scope.

(** ** Python values and exceptions *)

Inductive exn : Set :=
  | KeyError | ValueError | NameError | ZeroDivisionError
  | NotImplementedError | AssertionError | NetworkXNoPath | NetworkXError.

Inductive res (A : Type) : Type :=
  | Ok (a : A)
  | Raise (e : exn).
Arguments Ok {A} a.
Arguments Raise {A} e.

#[global] Instance exn_eq_dec : EqDecision exn.
Proof. solve_decision. Defined.
#[global] Instance res_eq_dec `{EqDecision A} : EqDecision (res A).
Proof. solve_decision. Defined.

Definition res_bind {A B} (r : res A) (k : A → res B) : res B :=
  match r with Ok a => k a | Raise e => Raise e end.

(** [M S A]: a computation that mutates an object of type [S] and either
    returns an [A] or raises; the object survives the exception. *)
Definition M (S A : Type) : Type := S → res A * S.

Definition M_bind {S A B} (c : M S A) (k : A → M S B) : M S B :=
  λ s, match c s with
       | (Ok a, s') => k a s'
       | (Raise e, s') => (Raise e, s')
       end.

(** [for x in l: body(x)] *)
Fixpoint for_ {S A} (l : list A) (body : A → M S unit) : M S unit :=
  match l with
  | [] => λ s, (Ok tt, s)
  | x :: l' => M_bind (body x) (λ _, for_ l' body)
  end.

(** [for x in l: acc.append(f(x))], stopping at the first exception. *)
Fixpoint map_res {A B} (f : A → res B) (l : list A) : res (list B) :=
  match l with
  | [] => Ok []
  | x :: l' => res_bind (f x) (λ y, res_bind (map_res f l') (λ ys, Ok (y :: ys)))
  end.

(** Python's [sum] over floats and [abs]. *)
Definition Qc_sum (l : list Qc) : Qc := foldl Qcplus 0 l.
Definition Qc_abs (x : Qc) : Qc := if decide (x < 0) then - x else x.

(** ** The topology: a networkx [DiGraph] *)

Abbreviation node := string.

Inductive node_type : Set := switch | server.
#[global] Instance node_type_eq_dec : EqDecision node_type.
Proof. solve_decision. Defined.

(** The attribute dict of an edge: keys ['capacity'] and ['used']. *)
Record edge_attrs : Set := { capacity : Qc; used : Qc }.
#[global] Instance edge_attrs_eq_dec : EqDecision edge_attrs.
Proof. solve_decision. Defined.

(** [node_attr] is the node dict with each node's ['type'] attribute (if it is
    one of the two the simulator looks at); [edge] is the adjacency
    [graph.edge[src][dst]], the same dict as [graph[src][dst]]. *)
Record DiGraph : Type := {
  node_attr : gmap node (option node_type);
  edge : gmap (node * node) edge_attrs
}.
#[global] Instance DiGraph_eq_dec : EqDecision DiGraph.
Proof. solve_decision. Defined.

(** [graph.edge[src][dst]['used'] = x] *)
Definition set_used (k : node * node) (x : Qc) (g : DiGraph) : DiGraph :=
  {| node_attr := node_attr g;
     edge := alter (λ e, {| capacity := capacity e; used := x |}) k (edge g) |}.

(** [graph.neighbors(s)]: the successors of [s]; raises when [s] is not a node. *)
Definition neighbors (g : DiGraph) (s : node) : res (list node) :=
  match node_attr g !! s with
  | None => Raise NetworkXError
  | Some _ =>
      Ok (omap (λ '((u, v), _), if decide (u = s) then Some v else None)
               (map_to_list (edge g)))
  end.

(** [zip(path[:-1], path[1:])] (a list in Python 2, so it can be walked twice) *)
Definition links (path : list node) : list (node * node) :=
  zip (removelast path) (tail path).

(** ** Controllers *)

(** The graph object a controller holds is either the very object the
    simulation owns (and mutates), or another object, which nothing mutates
    during a run. *)
Inductive graph_ref : Type :=
  | SimGraph
  | OwnGraph (g : DiGraph).
#[global] Instance graph_ref_eq_dec : EqDecision graph_ref.
Proof. solve_decision. Defined.

Record Controller : Type := {
  switches : list node;
  ctrl_servers : list node;
  ctrl_graph : graph_ref
}.
#[global] Instance Controller_eq_dec : EqDecision Controller.
Proof. solve_decision. Defined.

Definition deref (sim_graph : DiGraph) (r : graph_ref) : DiGraph :=
  match r with SimGraph => sim_graph | OwnGraph g => g end.

(** ** The simulation object *)

Abbreviation flow := (list node * Qc)%type.

Inductive metric_fcn : Set := fcn_rmse_links | fcn_rmse_servers.
#[global] Instance metric_fcn_eq_dec : EqDecision metric_fcn.
Proof. solve_decision. Defined.

Definition fcn_name (f : metric_fcn) : string :=
  match f with
  | fcn_rmse_links => "rmse_links"
  | fcn_rmse_servers => "rmse_servers"
  end.

Record LinkBalancerSim : Type := {
  graph : DiGraph;
  active_flows : gmap Z (list flow);
  servers : list node;
  sw_to_ctrl : gmap node Controller;
  metric_fcns : list metric_fcn
}.
#[global] Instance LinkBalancerSim_eq_dec : EqDecision LinkBalancerSim.
Proof. solve_decision. Defined.

Definition with_graph (self : LinkBalancerSim) (g : DiGraph) : LinkBalancerSim :=
  {| graph := g; active_flows := active_flows self; servers := servers self;
     sw_to_ctrl := sw_to_ctrl self; metric_fcns := metric_fcns self |}.

Definition with_active_flows (self : LinkBalancerSim) (af : gmap Z (list flow))
    : LinkBalancerSim :=
  {| graph := graph self; active_flows := af; servers := servers self;
     sw_to_ctrl := sw_to_ctrl self; metric_fcns := metric_fcns self |}.

(** ** The resource ledger *)

(** First loop of [allocate_resources]: [Ok false] is the early [return] on a
    link that would be oversubscribed, [Ok true] the loop running to its end. *)
Fixpoint links_fit (g : DiGraph) (resources : Qc) (ls : list (node * node))
    : res bool :=
  match ls with
  | [] => Ok true
  | (src, dst) :: ls' =>
      match edge g !! (src, dst) with
      | None => Raise KeyError
      | Some e =>
          if decide (capacity e < used e + resources) then Ok false
          else links_fit g resources ls'
      end
  end.

(** [edge = graph.edge[src][dst]; edge['used'] += delta] *)
Definition add_used (delta : Qc) (k : node * node) : M DiGraph unit :=
  λ g, match edge g !! k with
       | None => (Raise KeyError, g)
       | Some e => (Ok tt, set_used k (used e + delta) g)
       end.

Definition allocate_resources (path : option (list node)) (resources : Qc)
    (whenfree : Z) : M LinkBalancerSim unit :=
  λ self,
    match path with
    | None | Some [] => (Ok tt, self)
    | Some path =>
        match links_fit (graph self) resources (links path) with
        | Raise e => (Raise e, self)
        | Ok false => (Ok tt, self)
        | Ok true =>
            match for_ (links path) (add_used resources) (graph self) with
            | (Raise e, g') => (Raise e, with_graph self g')
            | (Ok _, g') =>
                let bucket := default [] (active_flows self !! whenfree) in
                (Ok tt,
                 with_active_flows (with_graph self g')
                   (<[whenfree := bucket ++ [(path, resources)]]>
                      (active_flows self)))
            end
        end
    end.

(** [graph.edge[src][dst]['used'] -= delta] *)
Definition sub_used (delta : Qc) (k : node * node) : M DiGraph unit :=
  λ g, match edge g !! k with
       | None => (Raise KeyError, g)
       | Some e => (Ok tt, set_used k (used e - delta) g)
       end.

(** The body of the loop over a bucket: subtract the flow's resources on every
    link of its path. *)
Definition free_flow (ending_flow : flow) : M DiGraph unit :=
  let '(path, resources) := ending_flow in
  for_ (links path) (sub_used resources).

Definition free_resources (timestep : Z) : M LinkBalancerSim unit :=
  λ self,
    match active_flows self !! timestep with
    | Some flows =>
        match for_ flows free_flow (graph self) with
        | (Raise e, g') => (Raise e, with_graph self g')
        | (Ok _, g') =>
            (Ok tt,
             with_active_flows (with_graph self g')
               (delete timestep (active_flows self)))
        end
    | None => (Ok tt, self)
    end.

(** ** Balance metrics *)

(** The second loop of both metrics: for each [(capacity, used)] pair,
    [opt_used = (used_total / cap_total) * capacity] and the value
    [abs(used - opt_used) ** 2].  The float division raises on a zero
    divisor. *)
Definition deviation_value (used_total cap_total : Qc) (pair : Qc * Qc) : res Qc :=
  let '(capacity, used) := pair in
  if decide (cap_total = 0) then Raise ZeroDivisionError
  else
    let opt_used := (used_total / cap_total) * capacity in
    Ok (Qc_abs (used - opt_used) ^ 2).

(** [if not graph: graph = self.graph]; a graph without nodes is falsy. *)
Definition graph_or_self (self : LinkBalancerSim) (graph_arg : option DiGraph)
    : DiGraph :=
  match graph_arg with
  | None => graph self
  | Some g => if decide (node_attr g = ∅) then graph self else g
  end.

Definition rmse_links (self : LinkBalancerSim) (graph_arg : option DiGraph)
    : res R :=
  let g := graph_or_self self graph_arg in
  let '(used_total, cap_total, pairs) :=
    foldl (λ '(used_total, cap_total, pairs) '(_, attrs),
             (used_total + used attrs, cap_total + capacity attrs,
              pairs ++ [(capacity attrs, used attrs)]))
          (0, 0, []) (map_to_list (edge g)) in
  res_bind (map_res (deviation_value used_total cap_total) pairs)
           (λ values, Ok (sqrt (Q2R (Qc_sum values)))).

(** The loop over [self.servers] of [rmse_servers]. *)
Fixpoint server_pairs (g : DiGraph) (srvs : list node)
    (acc : Qc * Qc * list (Qc * Qc)) : res (Qc * Qc * list (Qc * Qc)) :=
  match srvs with
  | [] => Ok acc
  | s :: srvs' =>
      let '(used_total, cap_total, pairs) := acc in
      match neighbors g s with
      | Raise e => Raise e
      | Ok [dst] =>
          match edge g !! (s, dst) with
          | None => Raise KeyError
          | Some attrs =>
              server_pairs g srvs'
                (used_total + used attrs, cap_total + capacity attrs,
                 pairs ++ [(capacity attrs, used attrs)])
          end
      | Ok _ => Raise NotImplementedError
      end
  end.

Definition rmse_servers (self : LinkBalancerSim) (graph_arg : option DiGraph)
    : res R :=
  let g := graph_or_self self graph_arg in
  res_bind (server_pairs g (servers self) (0, 0, []))
    (λ '(used_total, cap_total, pairs),
       res_bind (map_res (deviation_value used_total cap_total) pairs)
                (λ values, Ok (sqrt (Q2R (Qc_sum values))))).

Definition call_metric (f : metric_fcn) (self : LinkBalancerSim)
    (g : DiGraph) : res R :=
  match f with
  | fcn_rmse_links => rmse_links self (Some g)
  | fcn_rmse_servers => rmse_servers self (Some g)
  end.

(** ** Path selection and the timestep loop *)

(** A request of the workload: [(switch of arrival, utilization, duration)]. *)
Abbreviation request := (node * Qc * Z)%type.

(** The dict [run] returns: metric name to the list of its values. *)
Abbreviation metrics_dict := (gmap string (list R)).

Section Simulation.

(** [nx.shortest_path(graph, source, target)], provided by networkx.  It
    raises when there is no path. *)
Variable shortest_path : DiGraph → node → node → res (list node).

(** Whether the module has a global named [i].  [handle_request] reads [i]
    when it reports an oversubscribed link; the module defines none itself,
    so it is bound only if [from workload import *] brings one in. *)
Variable global_i_bound : bool.

(** [max(linkmetrics)] *)
Definition py_max (l : list Qc) : res Qc :=
  match l with
  | [] => Raise ValueError
  | x :: l' => Ok (foldl (λ m y, if decide (m < y) then y else m) x l')
  end.

(** The loop over the links of one candidate path. *)
Fixpoint link_metrics (self : Controller) (g : DiGraph) (util : Qc)
    (ls : list (node * node)) (linkmetrics : list Qc) : res (list Qc) :=
  match ls with
  | [] => Ok linkmetrics
  | (u, v) :: ls' =>
      if negb (bool_decide (v ∈ switches self) || bool_decide (u ∈ switches self))
      then link_metrics self g util ls' linkmetrics
      else
        match edge g !! (u, v) with
        | None => Raise KeyError
        | Some e =>
            let used := used e + util in
            let capacity := capacity e in
            if decide (capacity = 0) then Raise ZeroDivisionError
            else
              let linkmetric := used / capacity in
              if decide (1 < linkmetric) then
                (* print >> sys.stderr, "OVERSUBSCRIBED at time " + str(i)
                   next *)
                if global_i_bound then link_metrics self g util ls' linkmetrics
                else Raise NameError
              else link_metrics self g util ls' (linkmetrics ++ [linkmetric])
        end
  end.

(** The loop over the candidate paths, threading [(bestpath, bestpathmetric)]. *)
Fixpoint best_path (self : Controller) (g : DiGraph) (util : Qc)
    (paths : list (list node)) (best : option (list node) * Qc)
    : res (option (list node) * Qc) :=
  match paths with
  | [] => Ok best
  | path :: paths' =>
      let '(bestpath, bestpathmetric) := best in
      res_bind (link_metrics self g util (links path) [])
        (λ linkmetrics,
           res_bind (py_max linkmetrics)
             (λ pathmetric,
                if decide (pathmetric < bestpathmetric)
                then best_path self g util paths' (Some path, pathmetric)
                else best_path self g util paths' (bestpath, bestpathmetric)))
  end.

(** [LinkBalancerCtrl.handle_request]; [sim_graph] is the current content of
    the simulation's graph object, which [self.graph] may alias. *)
Definition handle_request (self : Controller) (sim_graph : DiGraph)
    (sw : node) (util : Qc) (duration : Z) : res (option (list node)) :=
  let g := deref sim_graph (ctrl_graph self) in
  res_bind (map_res (λ server, shortest_path g server sw) (ctrl_servers self))
    (λ paths,
       res_bind (best_path self g util paths (None, 1))
         (λ best, Ok (fst best))).

(** The body of the loop over one timestep's requests. *)
Definition handle_req (i : Z) (req : request) : M LinkBalancerSim unit :=
  λ self,
    let '(sw, size, duration) := req in
    if decide (0 < duration)%Z then
      match sw_to_ctrl self !! sw with
      | None => (Raise KeyError, self)
      | Some ctrl =>
          match handle_request ctrl (graph self) sw size duration with
          | Raise e => (Raise e, self)
          | Ok path => allocate_resources path size (duration + i) self
          end
      end
    else (Raise AssertionError, self).

(** [all_metrics[fcn.__name__].append(fcn(self.graph))] *)
Definition record_metric (self : LinkBalancerSim) (fcn : metric_fcn)
    : M metrics_dict unit :=
  λ all_metrics,
    match all_metrics !! fcn_name fcn with
    | None => (Raise KeyError, all_metrics)
    | Some values =>
        match call_metric fcn self (graph self) with
        | Raise e => (Raise e, all_metrics)
        | Ok v => (Ok tt, <[fcn_name fcn := values ++ [v]]> all_metrics)
        end
    end.

(** The body of [for i, reqs in enumerate(workload)]; the state is the
    simulation object together with the [all_metrics] dict. *)
Definition timestep (ireqs : Z * list request)
    : M (LinkBalancerSim * metrics_dict) unit :=
  λ '(self, all_metrics),
    let '(i, reqs) := ireqs in
    match free_resources i self with
    | (Raise e, self1) => (Raise e, (self1, all_metrics))
    | (Ok _, self1) =>
        match for_ reqs (handle_req i) self1 with
        | (Raise e, self2) => (Raise e, (self2, all_metrics))
        | (Ok _, self2) =>
            match for_ (metric_fcns self2) (record_metric self2) all_metrics with
            | (r, all_metrics') => (r, (self2, all_metrics'))
            end
        end
    end.

(** [enumerate(workload)] *)
Definition enumerate {A} (l : list A) : list (Z * A) :=
  imap (λ i x, (Z.of_nat i, x)) l.

Definition run (workload : list (list request))
    : LinkBalancerSim → res metrics_dict * LinkBalancerSim :=
  λ self,
    let all_metrics : metrics_dict :=
      foldl (λ m fcn, <[fcn_name fcn := []]> m) ∅ (metric_fcns self) in
    match for_ (enumerate workload) timestep (self, all_metrics) with
    | (Ok _, (self', all_metrics')) => (Ok all_metrics', self')
    | (Raise e, (self', _)) => (Raise e, self')
    end.

End Simulation.

(** ** Construction and the topologies of the test suite *)

(** [Simulation.__init__] followed by [LinkBalancerSim.__init__].  The edges of
    [graph] already carry their ['used'] attribute, so the [setdefault] of the
    constructor changes nothing.  The assertion fails when a switch is claimed
    twice. *)
Fixpoint map_switches (ctrl : Controller) (sws : list node)
    (sw_to_ctrl : gmap node Controller) : res (gmap node Controller) :=
  match sws with
  | [] => Ok sw_to_ctrl
  | sw :: sws' =>
      match sw_to_ctrl !! sw with
      | Some _ => Raise AssertionError
      | None => map_switches ctrl sws' (<[sw := ctrl]> sw_to_ctrl)
      end
  end.

Fixpoint map_ctrls (ctrls : list Controller) (sw_to_ctrl : gmap node Controller)
    : res (gmap node Controller) :=
  match ctrls with
  | [] => Ok sw_to_ctrl
  | ctrl :: ctrls' =>
      res_bind (map_switches ctrl (switches ctrl) sw_to_ctrl) (map_ctrls ctrls')
  end.

Definition LinkBalancerSim_init (graph : DiGraph) (ctrls : list Controller)
    : res LinkBalancerSim :=
  let servers :=
    omap (λ '(node, type), if decide (type = Some server) then Some node else None)
         (map_to_list (node_attr graph)) in
  res_bind (map_ctrls ctrls ∅)
    (λ sw_to_ctrl,
       Ok {| graph := graph; active_flows := ∅; servers := servers;
             sw_to_ctrl := sw_to_ctrl;
             metric_fcns := [fcn_rmse_links; fcn_rmse_servers] |}).

Definition mk_edge (capacity used : Z) : edge_attrs :=
  {| capacity := Qc_of_Z capacity; used := Qc_of_Z used |}.

Definition two_switch_nodes : gmap node (option node_type) :=
  list_to_map [("sw1", Some switch); ("sw2", Some switch);
               ("s1", Some server); ("s2", Some server)].

(** [two_switch_topo()] *)
Definition two_switch_topo : DiGraph :=
  {| node_attr := two_switch_nodes;
     edge := list_to_map [(("s1", "sw1"), mk_edge 100 0);
                          (("sw1", "sw2"), mk_edge 1000 0);
                          (("sw2", "sw1"), mk_edge 1000 0);
                          (("s2", "sw2"), mk_edge 100 0)] |}.

(** The graph of [test_metric_unbalanced_known]. *)
Definition unbalanced_known : DiGraph :=
  {| node_attr := two_switch_nodes;
     edge := list_to_map [(("s1", "sw1"), mk_edge 100 100);
                          (("sw1", "sw2"), mk_edge 100 50);
                          (("sw2", "sw1"), mk_edge 100 50);
                          (("s2", "sw2"), mk_edge 100 100)] |}.

(** The shortest paths from the servers to the switches of these two
    topologies; each is the only shortest path between its endpoints. *)
Definition two_switch_paths (g : DiGraph) (source target : node)
    : res (list node) :=
  if decide (source = "s1" ∧ target = "sw1") then Ok ["s1"; "sw1"]
  else if decide (source = "s2" ∧ target = "sw1") then Ok ["s2"; "sw2"; "sw1"]
  else if decide (source = "s1" ∧ target = "sw2") then Ok ["s1"; "sw1"; "sw2"]
  else if decide (source = "s2" ∧ target = "sw2") then Ok ["s2"; "sw2"]
  else Raise NetworkXNoPath.

(** [TestTwoSwitch.two_ctrls()], the controllers sharing the simulation's
    graph object. *)
Definition two_ctrls : list Controller :=
  [ {| switches := ["sw1"]; ctrl_servers := ["s1"; "s2"]; ctrl_graph := SimGraph |};
    {| switches := ["sw2"]; ctrl_servers := ["s1"; "s2"]; ctrl_graph := SimGraph |} ].

(** The simulation object over [g] with these two controllers, as the
    constructor builds it. *)
Definition two_ctrl_sim (g : DiGraph) : LinkBalancerSim :=
  {| graph := g; active_flows := ∅; servers := ["s1"; "s2"];
     sw_to_ctrl := list_to_map [("sw1", {| switches := ["sw1"];
                                           ctrl_servers := ["s1"; "s2"];
                                           ctrl_graph := SimGraph |});
                                ("sw2", {| switches := ["sw2"];
                                           ctrl_servers := ["s1"; "s2"];
                                           ctrl_graph := SimGraph |})];
     metric_fcns := [fcn_rmse_links; fcn_rmse_servers] |}.

(** * The ledger over binary64 floats *)

(** The [used] and [capacity] attributes and the request sizes are Python
    floats: [edge['used'] += resources] and [edge['used'] -= resources] round,
    and so does the sum that [allocate_resources] compares with the capacity.
    [Binary64] gives the simulation object and its two ledger operations with
    these values as IEEE 754 binary64 numbers and with the operations of the
    source on them, for the statements that depend on the rounding. *)
Module Binary64.

(** The attribute dict of an edge. *)
Record edge_attrs : Set := { capacity : float; used : float }.

Record DiGraph : Type := {
  node_attr : gmap node (option node_type);
  edge : gmap (node * node) edge_attrs
}.

(** [graph.edge[src][dst]['used'] = x] *)
Definition set_used (k : node * node) (x : float) (g : DiGraph) : DiGraph :=
  {| node_attr := node_attr g;
     edge := alter (λ e, {| capacity := capacity e; used := x |}) k (edge g) |}.

Inductive graph_ref : Type :=
  | SimGraph
  | OwnGraph (g : DiGraph).

Record Controller : Type := {
  switches : list node;
  ctrl_servers : list node;
  ctrl_graph : graph_ref
}.

Abbreviation flow := (list node * float)%type.

Record LinkBalancerSim : Type := {
  graph : DiGraph;
  active_flows : gmap Z (list flow);
  servers : list node;
  sw_to_ctrl : gmap node Controller;
  metric_fcns : list metric_fcn
}.

Definition with_graph (self : LinkBalancerSim) (g : DiGraph) : LinkBalancerSim :=
  {| graph := g; active_flows := active_flows self; servers := servers self;
     sw_to_ctrl := sw_to_ctrl self; metric_fcns := metric_fcns self |}.

Definition with_active_flows (self : LinkBalancerSim) (af : gmap Z (list flow))
    : LinkBalancerSim :=
  {| graph := graph self; active_flows := af; servers := servers self;
     sw_to_ctrl := sw_to_ctrl self; metric_fcns := metric_fcns self |}.

(** First loop of [allocate_resources]:
    [if edge['used'] + resources > edge['capacity']: return]. *)
Fixpoint links_fit (g : DiGraph) (resources : float) (ls : list (node * node))
    : res bool :=
  match ls with
  | [] => Ok true
  | (src, dst) :: ls' =>
      match edge g !! (src, dst) with
      | None => Raise KeyError
      | Some e =>
          if (capacity e <? used e + resources)%float then Ok false
          else links_fit g resources ls'
      end
  end.

(** [edge = graph.edge[src][dst]; edge['used'] += delta] *)
Definition add_used (delta : float) (k : node * node) : M DiGraph unit :=
  λ g, match edge g !! k with
       | None => (Raise KeyError, g)
       | Some e => (Ok tt, set_used k (used e + delta)%float g)
       end.

Definition allocate_resources (path : option (list node)) (resources : float)
    (whenfree : Z) : M LinkBalancerSim unit :=
  λ self,
    match path with
    | None | Some [] => (Ok tt, self)
    | Some path =>
        match links_fit (graph self) resources (links path) with
        | Raise e => (Raise e, self)
        | Ok false => (Ok tt, self)
        | Ok true =>
            match for_ (links path) (add_used resources) (graph self) with
            | (Raise e, g') => (Raise e, with_graph self g')
            | (Ok _, g') =>
                let bucket := default [] (active_flows self !! whenfree) in
                (Ok tt,
                 with_active_flows (with_graph self g')
                   (<[whenfree := bucket ++ [(path, resources)]]>
                      (active_flows self)))
            end
        end
    end.

(** [graph.edge[src][dst]['used'] -= delta] *)
Definition sub_used (delta : float) (k : node * node) : M DiGraph unit :=
  λ g, match edge g !! k with
       | None => (Raise KeyError, g)
       | Some e => (Ok tt, set_used k (used e - delta)%float g)
       end.

Definition free_flow (ending_flow : flow) : M DiGraph unit :=
  let '(path, resources) := ending_flow in
  for_ (links path) (sub_used resources).

Definition free_resources (timestep : Z) : M LinkBalancerSim unit :=
  λ self,
    match active_flows self !! timestep with
    | Some flows =>
        match for_ flows free_flow (graph self) with
        | (Raise e, g') => (Raise e, with_graph self g')
        | (Ok _, g') =>
            (Ok tt,
             with_active_flows (with_graph self g')
               (delete timestep (active_flows self)))
        end
    | None => (Ok tt, self)
    end.

(** A call of one of the two ledger operations. *)
Inductive ledger_call : Type :=
  | call_allocate (path : option (list node)) (resources : float) (whenfree : Z)
  | call_free (timestep : Z).

Definition do_call (c : ledger_call) : M LinkBalancerSim unit :=
  match c with
  | call_allocate path resources whenfree =>
      allocate_resources path resources whenfree
  | call_free timestep => free_resources timestep
  end.

End Binary64.

(** * Definitions used by the statements *)

(** What a flow of [r] units over the links [ls] places on the link [k]:
    [r] for each time the path crosses [k]. *)
Definition load (ls : list (node * node)) (r : Qc) (k : node * node) : Qc :=
  foldr (λ l acc, (if decide (l = k) then r else 0) + acc) 0 ls.

(** What a whole bucket of flows places on [k]. *)
Definition bucket_load (flows : list flow) (k : node * node) : Qc :=
  foldr (λ f acc, load (links f.1) f.2 k + acc) 0 flows.

Arguments load : simpl never.
Arguments bucket_load : simpl never.

(** The graph with [f k] added to the utilisation of every edge [k]. *)
Definition shift_used (f : node * node → Qc) (g : DiGraph) : DiGraph :=
  {| node_attr := node_attr g;
     edge := map_imap (λ k e, Some {| capacity := capacity e;
                                      used := used e + f k |}) (edge g) |}.

(** What all the flows recorded in the ledger place on the link [k]. *)
Definition committed (af : gmap Z (list flow)) (k : node * node) : Qc :=
  map_fold (λ _ flows acc, bucket_load flows k + acc) 0 af.

(** The ledger invariant: every recorded flow carries a non-negative amount
    over links of the graph, and every edge carries at least what the
    recorded flows place on it and at most its capacity. *)
Record ledger_consistent (self : LinkBalancerSim) : Prop := {
  lc_flows : ∀ t flows f,
    active_flows self !! t = Some flows → f ∈ flows →
    0 ≤ f.2 ∧ ∀ k, k ∈ links f.1 → is_Some (edge (graph self) !! k);
  lc_edges : ∀ k e,
    edge (graph self) !! k = Some e →
    committed (active_flows self) k ≤ used e ∧ used e ≤ capacity e
}.

(** What the invariant needs of networkx: a shortest path is a simple path. *)
Definition simple_paths (shortest_path : DiGraph → node → node → res (list node))
    : Prop :=
  ∀ g source target p, shortest_path g source target = Ok p → NoDup p.

(** A workload whose requests all ask for a non-negative amount. *)
Definition nonneg_sizes (workload : list (list request)) : Prop :=
  ∀ reqs sw size duration,
    reqs ∈ workload → (sw, size, duration) ∈ reqs → 0 ≤ size.

(** A value that holds an integer of magnitude at most 2^52.  The sum and
    the difference of two such values are integers of magnitude at most 2^53,
    which binary64 represents exactly: on such values the float [+], [-] and
    comparisons of the ledger give what the rational ones give. *)
Definition whole (x : Qc) : Prop :=
  ∃ n : Z, x = Qc_of_Z n ∧ (Z.abs n ≤ 2 ^ 52)%Z.

(** A workload whose requests all ask for such an amount. *)
Definition whole_sizes (workload : list (list request)) : Prop :=
  ∀ reqs sw size duration,
    reqs ∈ workload → (sw, size, duration) ∈ reqs → whole size.

(** Every utilisation of the graph, and every amount recorded in the ledger,
    is an integer. *)
Definition integer_valued (x : Qc) : Prop := ∃ n : Z, x = Qc_of_Z n.

Definition integral_graph (g : DiGraph) : Prop :=
  ∀ k e, edge g !! k = Some e → integer_valued (used e).

Definition integral (self : LinkBalancerSim) : Prop :=
  integral_graph (graph self) ∧
  ∀ t flows f, active_flows self !! t = Some flows → f ∈ flows →
               integer_valued f.2.

(** The ideal-split deviation of a list of [(capacity, used)] pairs. *)
Definition sq_deviations (pairs : list (Qc * Qc)) : list Qc :=
  let cap_total := Qc_sum (pairs.*1) in
  let used_total := Qc_sum (pairs.*2) in
  (λ '(capacity, used), 
     (used - (used_total / cap_total) * capacity) *
     (used - (used_total / cap_total) * capacity)) <$> pairs.

Definition ideal_split_rmse (pairs : list (Qc * Qc)) : res R :=
  match pairs with
  | [] => Ok (sqrt (Q2R 0))
  | _ =>
      if decide (Qc_sum (pairs.*1) = 0) then Raise ZeroDivisionError
      else Ok (sqrt (Q2R (Qc_sum (sq_deviations pairs))))
  end.

(** The [(capacity, used)] pairs of all the edges of a graph. *)
Definition edge_pairs (g : DiGraph) : list (Qc * Qc) :=
  (λ ke, (capacity ke.2, used ke.2)) <$> map_to_list (edge g).

Definition cap_total (g : DiGraph) : Qc :=
  Qc_sum ((λ ke, capacity ke.2) <$> map_to_list (edge g)).

Definition used_total (g : DiGraph) : Qc :=
  Qc_sum ((λ ke, used ke.2) <$> map_to_list (edge g)).

(** The square root of the sum, over all edges, of
    [(used - (used_total / cap_total) * capacity)²]. *)
Definition rmse_links_formula (g : DiGraph) : R :=
  sqrt (Q2R (Qc_sum ((λ ke, (used ke.2 - (used_total g / cap_total g) * capacity ke.2) ^ 2)
                       <$> map_to_list (edge g)))).

(** The edge from a server to its single neighbor, when it has exactly one. *)
Definition server_edge (g : DiGraph) (s : node)
    : option (node * node * edge_attrs) :=
  match neighbors g s with
  | Ok [dst] => (λ e, ((s, dst), e)) <$> edge g !! (s, dst)
  | _ => None
  end.

(** The graph with only the edges that leave one of the given servers. *)
Definition server_links (srvs : list node) (g : DiGraph) : DiGraph :=
  {| node_attr := node_attr g;
     edge := filter (λ ke, ke.1.1 ∈ srvs) (edge g) |}.

(** A controller that owns both switches and routes to [s1] (as the single
    controller of [test_multi_allocate_and_free] owns both). *)
Definition both_switches_ctrl : Controller :=
  {| switches := ["sw1"; "sw2"]; ctrl_servers := ["s1"]; ctrl_graph := SimGraph |}.

(** The two-switch topology with the link from [s1] to [sw1] fully used. *)
Definition s1_link_full : DiGraph :=
  {| node_attr := two_switch_nodes;
     edge := list_to_map [(("s1", "sw1"), mk_edge 100 100);
                          (("sw1", "sw2"), mk_edge 1000 0);
                          (("sw2", "sw1"), mk_edge 1000 0);
                          (("s2", "sw2"), mk_edge 100 0)] |}.

(** A controller of [sw1] that routes to [s2] only. *)
Definition sw1_ctrl_s2 : Controller :=
  {| switches := ["sw1"]; ctrl_servers := ["s2"]; ctrl_graph := SimGraph |}.

(** The first controller of [two_ctrls]. *)
Definition sw1_ctrl : Controller :=
  {| switches := ["sw1"]; ctrl_servers := ["s1"; "s2"]; ctrl_graph := SimGraph |}.

Definition single_step_workload : list (list request) :=
  [[("sw1", 1, 2%Z); ("sw2", 1, 2%Z)]].

(** One server behind one switch: a single edge. *)
Definition single_link_topo : DiGraph :=
  {| node_attr := list_to_map [("sw1", Some switch); ("s1", Some server)];
     edge := list_to_map [(("s1", "sw1"), mk_edge 100 0)] |}.

Definition single_link_sim : LinkBalancerSim :=
  {| graph := single_link_topo; active_flows := ∅; servers := ["s1"];
     sw_to_ctrl := list_to_map [("sw1", {| switches := ["sw1"];
                                           ctrl_servers := ["s1"];
                                           ctrl_graph := SimGraph |})];
     metric_fcns := [fcn_rmse_links; fcn_rmse_servers] |}.

(** The two-switch simulation with 10 units on the link from [s1] to [sw1],
    recorded in the ledger as a flow that expires at timestep 5. *)
Definition one_flow_sim : LinkBalancerSim :=
  {| graph :=
       {| node_attr := two_switch_nodes;
          edge := list_to_map [(("s1", "sw1"), mk_edge 100 10);
                               (("sw1", "sw2"), mk_edge 1000 0);
                               (("sw2", "sw1"), mk_edge 1000 0);
                               (("s2", "sw2"), mk_edge 100 0)] |};
     active_flows := {[ 5%Z := [(["s1"; "sw1"], Qc_of_Z 10)] ]};
     servers := ["s1"; "s2"]; sw_to_ctrl := ∅;
     metric_fcns := [fcn_rmse_links; fcn_rmse_servers] |}.

(** The two-switch simulation whose ledger holds a flow of 40 units over a
    link that carries nothing. *)
Definition overdrawn_sim : LinkBalancerSim :=
  with_active_flows (two_ctrl_sim two_switch_topo)
    {[ 5%Z := [(["s1"; "sw1"], Qc_of_Z 40)] ]}.

(** A server with two neighbors. *)
Definition two_neighbor_topo : DiGraph :=
  {| node_attr := two_switch_nodes;
     edge := list_to_map [(("s1", "sw1"), mk_edge 100 0);
                          (("s1", "sw2"), mk_edge 100 0);
                          (("s2", "sw2"), mk_edge 100 0)] |}.

(** ** The timestep loop, as described *)

Section RunDescription.

Variable shortest_path : DiGraph → node → node → res (list node).
Variable global_i_bound : bool.

(** Admitting one demand at timestep [t]: reject a non-positive duration,
    resolve the controller that owns the entry switch, ask it for a path and,
    if it returns one, allocate it with expiry [t + duration]. *)
Definition handle_demand (t : Z) (demand : request) : M LinkBalancerSim unit :=
  λ self,
    let '(entry_switch, size, duration) := demand in
    if decide (0 < duration)%Z then
      match sw_to_ctrl self !! entry_switch with
      | None => (Raise KeyError, self)
      | Some ctrl =>
          match handle_request shortest_path global_i_bound ctrl (graph self)
                  entry_switch size duration with
          | Raise e => (Raise e, self)
          | Ok None => (Ok tt, self)
          | Ok (Some path) =>
              allocate_resources (Some path) size (t + duration) self
          end
      end
    else (Raise AssertionError, self).

(** Measuring: one value for each registered metric, in registration order. *)
Definition measure (self : LinkBalancerSim) : res (list R) :=
  map_res (λ fcn, call_metric fcn self (graph self)) (metric_fcns self).

(** The run from timestep [t] on: free, then handle_demand the demands in list order,
    then measure, then go on with [t + 1].  The result has one row of
    measurements for each timestep, in order. *)
Fixpoint run_from (t : Z) (workload : list (list request))
    : M LinkBalancerSim (list (list R)) :=
  match workload with
  | [] => λ self, (Ok [], self)
  | demands :: rest =>
      λ self,
        match free_resources t self with
        | (Raise e, self1) => (Raise e, self1)
        | (Ok _, self1) =>
            match for_ demands (handle_demand t) self1 with
            | (Raise e, self2) => (Raise e, self2)
            | (Ok _, self2) =>
                match measure self2 with
                | Raise e => (Raise e, self2)
                | Ok row =>
                    match run_from (t + 1) rest self2 with
                    | (Ok rows, self') => (Ok (row :: rows), self')
                    | (Raise e, self') => (Raise e, self')
                    end
                end
            end
        end
  end.

End RunDescription.

(** The [j]-th measurement of every row. *)
Definition column (j : nat) (rows : list (list R)) : list R :=
  omap (λ row, row !! j) rows.
Arguments column : simpl never.

(** ** Definitions for the further properties *)

(** A link counts in a controller's scoring when one of its endpoints is one
    of the controller's switches. *)
Definition considered (self : Controller) (link : node * node) : Prop :=
  link.2 ∈ switches self ∨ link.1 ∈ switches self.

(** The score of one candidate path: the metrics of its links, then their
    maximum. *)
Definition path_score (global_i_bound : bool) (self : Controller) (g : DiGraph)
    (util : Qc) (path : list node) : res Qc :=
  res_bind (link_metrics global_i_bound self g util (links path) []) py_max.

(** A call of one of the two ledger operations. *)
Inductive ledger_call : Type :=
  | call_allocate (path : option (list node)) (resources : Qc) (whenfree : Z)
  | call_free (timestep : Z).

Definition do_call (c : ledger_call) : M LinkBalancerSim unit :=
  match c with
  | call_allocate path resources whenfree =>
      allocate_resources path resources whenfree
  | call_free timestep => free_resources timestep
  end.

(** Two graphs with the same nodes, the same edges and the same capacities. *)
Definition same_topology (g g' : DiGraph) : Prop :=
  node_attr g' = node_attr g ∧
  ∀ k, capacity <$> edge g' !! k = capacity <$> edge g !! k.

(** Two simulation objects that differ at most in [used] values and in the
    ledger. *)
Definition same_structure (s s' : LinkBalancerSim) : Prop :=
  same_topology (graph s) (graph s') ∧ servers s' = servers s ∧
  sw_to_ctrl s' = sw_to_ctrl s ∧ metric_fcns s' = metric_fcns s.

(** The switches the controllers claim, in the order the constructor visits
    them. *)
Definition claimed_switches (ctrls : list Controller) : list node :=
  ctrls ≫= switches.

(** One allocation that is freed at its expiry. *)
Definition allocate_then_free_calls : list ledger_call :=
  [call_allocate (Some ["s1"; "sw1"]) (Qc_of_Z 40) 5; call_free 5].

(** A workload whose only request has a zero duration. *)
Definition zero_duration_workload : list (list request) :=
  [[("sw1", 1, 0%Z)]].

(** ** Definitions for the statements over binary64 floats *)

(** How many times a path crosses the link [k], going from each node to the
    next. *)
Fixpoint crossings (path : list node) (k : node * node) : nat :=
  match path with
  | u :: (v :: _) as rest => (if decide ((u, v) = k) then 1 else 0) + crossings rest k
  | _ => 0
  end.

(** [u + r + ... + r] and [u - r - ... - r], with [n] float operations from
    left to right. *)
Definition add_times (n : nat) (r u : float) : float :=
  Nat.iter n (λ x, (x + r)%float) u.

Definition sub_times (n : nat) (r u : float) : float :=
  Nat.iter n (λ x, (x - r)%float) u.

(** The graph with [f k] applied to the utilisation of every edge [k]. *)
Definition map_used (f : node * node → float → float) (g : Binary64.DiGraph)
    : Binary64.DiGraph :=
  {| Binary64.node_attr := Binary64.node_attr g;
     Binary64.edge :=
       map_imap (λ k e, Some {| Binary64.capacity := Binary64.capacity e;
                                Binary64.used := f k (Binary64.used e) |})
                (Binary64.edge g) |}.
Arguments map_used : simpl never.

(** One server behind one switch: a single edge with the given capacity and
    utilisation, an empty ledger, and the switch's controller. *)
Definition binary64_link (capacity used : float) : Binary64.LinkBalancerSim :=
  {| Binary64.graph :=
       {| Binary64.node_attr := list_to_map [("sw1", Some switch); ("s1", Some server)];
          Binary64.edge :=
            {[ ("s1", "sw1") := {| Binary64.capacity := capacity;
                                   Binary64.used := used |} ]} |};
     Binary64.active_flows := ∅;
     Binary64.servers := ["s1"];
     Binary64.sw_to_ctrl :=
       {[ "sw1" := {| Binary64.switches := ["sw1"];
                      Binary64.ctrl_servers := ["s1"];
                      Binary64.ctrl_graph := Binary64.SimGraph |} ]};
     Binary64.metric_fcns := [fcn_rmse_links; fcn_rmse_servers] |}.

(** Two requests of 0.2 and 0.5 units at timestep 0, lasting one and two
    timesteps, then two timesteps without requests:
    [[[('sw1', 0.2, 1), ('sw1', 0.5, 2)], [], []]]. *)
Definition fractional_workload : list (list request) :=
  [[("sw1", Q2Qc (1 # 5), 1%Z); ("sw1", Q2Qc (1 # 2), 2%Z)]; []; []].

(** The ledger calls that [run] issues for this workload on a single link:
    each timestep frees its bucket, and the two requests of timestep 0 are
    routed over the only path, [s1, sw1]. *)
#[warnings="-inexact-float"]
Definition fractional_calls : list Binary64.ledger_call :=
  [Binary64.call_free 0;
   Binary64.call_allocate (Some ["s1"; "sw1"]) 0.2 1;
   Binary64.call_allocate (Some ["s1"; "sw1"]) 0.5 2;
   Binary64.call_free 1;
   Binary64.call_free 2].

(** * Properties *)

(** ** Arithmetic on [Qc] *)

Lemma Qc_eq_Qeq (x y : Qc) : x = y ↔ (x == y)%Q.
Proof. split; [intros ->; reflexivity | apply Qc_is_canon]. Qed.

(** Linear arithmetic on [Qc], by transfer to [Q]. *)
Ltac qc_lra :=
  rewrite ?Qc_eq_Qeq in *;
  unfold Qcle, Qclt, Qcminus, Qcplus, Qcopp, Q2Qc in *; cbn [this] in *;
  rewrite ?Qred_correct in *; Lqa.lra.

(** Closed facts about concrete numbers, maps and states. *)
Ltac by_compute := apply (bool_decide_unpack _); vm_compute; exact I.

(** ** Loops *)

Lemma for_app {S A} (l1 l2 : list A) (body : A → M S unit) s :
  for_ (l1 ++ l2) body s =
  match for_ l1 body s with
  | (Ok _, s') => for_ l2 body s'
  | (Raise e, s') => (Raise e, s')
  end.
Proof.
  revert s; induction l1 as [|x l1 IH]; intros s; simpl; [done|].
  unfold M_bind. destruct (body x s) as [[[]|e] s']; [apply IH | done].
Qed.

(** A property kept by every iteration holds of the object the loop leaves
    behind, whether the loop ends normally or by an exception. *)
Lemma for_preserves {S A} (P : S → Prop) (l : list A) (body : A → M S unit) s :
  (∀ x s, x ∈ l → P s → P (snd (body x s))) → P s → P (snd (for_ l body s)).
Proof.
  revert s; induction l as [|x l IH]; intros s Hbody Hs; simpl; [done|].
  unfold M_bind. pose proof (Hbody x s (list_elem_of_here _ _) Hs) as Hx.
  destruct (body x s) as [[[]|e] s']; simpl in *; [|done].
  apply IH; [|done]. intros y s'' Hy. apply Hbody. by apply list_elem_of_further.
Qed.

(** ** The effect of a flow on the edges *)

Lemma DiGraph_eq (g1 g2 : DiGraph) :
  node_attr g1 = node_attr g2 → edge g1 = edge g2 → g1 = g2.
Proof. destruct g1, g2; simpl; by intros -> ->. Qed.

Lemma edge_attrs_eq (e1 e2 : edge_attrs) :
  capacity e1 = capacity e2 → used e1 = used e2 → e1 = e2.
Proof. destruct e1, e2; simpl; by intros -> ->. Qed.

Lemma lookup_shift_used f g k :
  edge (shift_used f g) !! k =
  (λ e, {| capacity := capacity e; used := used e + f k |}) <$> edge g !! k.
Proof. simpl. rewrite map_lookup_imap. by destruct (edge g !! k). Qed.

Lemma shift_used_ext f h g :
  (∀ k, is_Some (edge g !! k) → f k = h k) → shift_used f g = shift_used h g.
Proof.
  intros Hfh. apply DiGraph_eq; [done|]. apply map_eq; intros k.
  rewrite !lookup_shift_used. destruct (edge g !! k) as [e|] eqn:He; [|done].
  simpl. by rewrite Hfh.
Qed.

Lemma shift_used_zero f g : (∀ k, f k = 0) → shift_used f g = g.
Proof.
  intros Hf. apply DiGraph_eq; [done|]. apply map_eq; intros k.
  rewrite lookup_shift_used. destruct (edge g !! k) as [e|]; [|done].
  simpl. f_equal. apply edge_attrs_eq; simpl; [done|]. rewrite Hf. ring.
Qed.

Lemma shift_used_shift_used f h g :
  shift_used f (shift_used h g) = shift_used (λ k, h k + f k) g.
Proof.
  apply DiGraph_eq; [done|]. apply map_eq; intros k.
  rewrite !lookup_shift_used. destruct (edge g !! k) as [e|]; [|done].
  simpl. f_equal. apply edge_attrs_eq; simpl; [done|]. ring.
Qed.

Lemma set_used_shift_used k x f g e :
  edge g !! k = Some e → x = used e + f k → (∀ j, j ≠ k → f j = 0) →
  set_used k x g = shift_used f g.
Proof.
  intros He -> Hf. apply DiGraph_eq; [done|]. apply map_eq; intros j.
  rewrite lookup_shift_used. simpl. destruct (decide (j = k)) as [->|Hj].
  - by rewrite lookup_alter_eq, He.
  - rewrite lookup_alter_ne by done. destruct (edge g !! j) as [e'|]; [|done].
    simpl. f_equal. apply edge_attrs_eq; simpl; [done|]. rewrite Hf by done. ring.
Qed.

Lemma load_nil r k : load [] r k = 0.
Proof. done. Qed.

Lemma load_cons l ls r k :
  load (l :: ls) r k = (if decide (l = k) then r else 0) + load ls r k.
Proof. done. Qed.

Lemma load_not_elem ls r k : k ∉ ls → load ls r k = 0.
Proof.
  induction ls as [|l ls IH]; [done|]. rewrite not_elem_of_cons. intros [? ?].
  rewrite load_cons, IH by done. rewrite decide_False by done. ring.
Qed.

Lemma load_NoDup ls r k : NoDup ls → k ∈ ls → load ls r k = r.
Proof.
  induction 1 as [|l ls Hl Hnd IH]; [by rewrite elem_of_nil|].
  rewrite load_cons, elem_of_cons. intros [Hkl|Hk].
  - subst l. rewrite decide_True, load_not_elem by done. ring.
  - rewrite decide_False, IH by (done || by intros ->). ring.
Qed.

Lemma load_nonneg ls r k : 0 ≤ r → 0 ≤ load ls r k.
Proof.
  intros Hr. induction ls as [|l ls IH]; [done|].
  rewrite load_cons. destruct (decide (l = k)); qc_lra.
Qed.

Lemma load_opp ls r k : load ls (- r) k = - load ls r k.
Proof.
  induction ls as [|l ls IH]; [by apply Qc_is_canon|].
  rewrite !load_cons, IH. destruct (decide (l = k)); ring.
Qed.

Lemma bucket_load_cons f flows k :
  bucket_load (f :: flows) k = load (links f.1) f.2 k + bucket_load flows k.
Proof. done. Qed.

Lemma bucket_load_snoc flows f k :
  bucket_load (flows ++ [f]) k = bucket_load flows k + load (links f.1) f.2 k.
Proof.
  induction flows as [|f' flows IH].
  - unfold bucket_load; simpl. ring.
  - rewrite <- app_comm_cons, !bucket_load_cons, IH. ring.
Qed.

Lemma bucket_load_nonneg flows k :
  (∀ f, f ∈ flows → 0 ≤ f.2) → 0 ≤ bucket_load flows k.
Proof.
  induction flows as [|f flows IH]; intros Hf; [done|].
  rewrite bucket_load_cons.
  assert (0 ≤ load (links f.1) f.2 k) by (apply load_nonneg, Hf; left).
  assert (0 ≤ bucket_load flows k) by (apply IH; intros; apply Hf; by right).
  qc_lra.
Qed.

(** ** The two loops of the ledger *)

Lemma for_ext {S A} (l : list A) (body1 body2 : A → M S unit) s :
  (∀ x s, body1 x s = body2 x s) → for_ l body1 s = for_ l body2 s.
Proof.
  intros Hb. revert s; induction l as [|x l IH]; intros s; simpl; [done|].
  unfold M_bind. rewrite Hb. destruct (body2 x s) as [[[]|e] s']; [apply IH | done].
Qed.

Lemma sub_used_add_used d k g : sub_used d k g = add_used (- d) k g.
Proof. done. Qed.

Lemma for_add_used ls d g :
  (∀ k, k ∈ ls → is_Some (edge g !! k)) →
  for_ ls (add_used d) g = (Ok tt, shift_used (load ls d) g).
Proof.
  revert g; induction ls as [|l ls IH]; intros g Hls; simpl.
  - by rewrite shift_used_zero.
  - unfold M_bind, add_used at 1.
    destruct (Hls l) as [e He]; [left|]. rewrite He.
    rewrite (set_used_shift_used l _ (λ k, if decide (l = k) then d else 0) g e);
      [|done|by rewrite decide_True|by intros; rewrite decide_False].
    rewrite IH.
    + by rewrite shift_used_shift_used.
    + intros k Hk. rewrite lookup_shift_used, fmap_is_Some. apply Hls. by right.
Qed.

Lemma for_sub_used ls d g :
  (∀ k, k ∈ ls → is_Some (edge g !! k)) →
  for_ ls (sub_used d) g = (Ok tt, shift_used (λ k, - load ls d k) g).
Proof.
  intros Hls. rewrite (for_ext _ _ (add_used (- d))) by apply sub_used_add_used.
  rewrite for_add_used by done. f_equal. apply shift_used_ext. intros. apply load_opp.
Qed.

Lemma for_free_flow flows g :
  (∀ f k, f ∈ flows → k ∈ links f.1 → is_Some (edge g !! k)) →
  for_ flows free_flow g = (Ok tt, shift_used (λ k, - bucket_load flows k) g).
Proof.
  revert g; induction flows as [|[path r] flows IH]; intros g Hfl; simpl.
  - rewrite shift_used_zero; [done|]. intros. by apply Qc_is_canon.
  - unfold M_bind. rewrite for_sub_used by (intros k; apply (Hfl (path, r)); left).
    rewrite IH.
    + rewrite shift_used_shift_used. f_equal. apply shift_used_ext.
      intros k _. rewrite bucket_load_cons. simpl. ring.
    + intros f k Hf Hk. rewrite lookup_shift_used, fmap_is_Some.
      apply (Hfl f); [by right|done].
Qed.

Lemma links_fit_true g r ls :
  links_fit g r ls = Ok true ↔
  ∀ k, k ∈ ls → ∃ e, edge g !! k = Some e ∧ used e + r ≤ capacity e.
Proof.
  induction ls as [|[src dst] ls IH]; simpl.
  - split; [|done]. intros _ k. by rewrite elem_of_nil.
  - destruct (edge g !! (src, dst)) as [e|] eqn:He.
    + destruct (decide (capacity e < used e + r)) as [Hlt|Hge].
      * split; [done|]. intros Hall. destruct (Hall (src, dst)) as (e' & He' & Hle); [left|].
        rewrite He in He'. injection He' as <-. by apply Qcle_not_lt in Hle.
      * rewrite IH. split.
        -- intros Hall k. rewrite elem_of_cons. intros [->|Hk]; [|by apply Hall].
           exists e. split; [done|]. by apply Qcnot_lt_le.
        -- intros Hall k Hk. apply Hall. by right.
    + split; [done|]. intros Hall. destruct (Hall (src, dst)) as (e' & He' & _); [left|].
      by rewrite He in He'.
Qed.

Lemma links_fit_false g r ls :
  (∀ k, k ∈ ls → is_Some (edge g !! k)) →
  (∃ k e, k ∈ ls ∧ edge g !! k = Some e ∧ capacity e < used e + r) →
  links_fit g r ls = Ok false.
Proof.
  induction ls as [|[src dst] ls IH]; intros Hex (k & e & Hk & He & Hlt); simpl.
  - by apply elem_of_nil in Hk.
  - destruct (Hex (src, dst)) as [e' He']; [left|]. rewrite He'.
    destruct (decide (capacity e' < used e' + r)); [done|].
    apply IH; [intros; apply Hex; by right|].
    apply elem_of_cons in Hk as [->|Hk]; [congruence|]. by exists k, e.
Qed.

(** The outcome of a rejected and of an accepted allocation. *)
Lemma allocate_resources_rejected path r whenfree self :
  (∀ k, k ∈ links path → is_Some (edge (graph self) !! k)) →
  (∃ k e, k ∈ links path ∧ edge (graph self) !! k = Some e ∧
          capacity e < used e + r) →
  allocate_resources (Some path) r whenfree self = (Ok tt, self).
Proof.
  intros Hex Hover. unfold allocate_resources.
  destruct path as [|x path]; [done|].
  by rewrite (links_fit_false _ _ _ Hex Hover).
Qed.

Lemma allocate_resources_accepted path r whenfree self :
  path ≠ [] →
  (∀ k, k ∈ links path →
        ∃ e, edge (graph self) !! k = Some e ∧ used e + r ≤ capacity e) →
  allocate_resources (Some path) r whenfree self =
  (Ok tt,
   with_active_flows
     (with_graph self (shift_used (load (links path) r) (graph self)))
     (<[whenfree := default [] (active_flows self !! whenfree) ++ [(path, r)]]>
        (active_flows self))).
Proof.
  intros Hne Hfit. unfold allocate_resources.
  destruct path as [|x path]; [done|].
  rewrite (proj2 (links_fit_true _ _ _) Hfit).
  rewrite for_add_used; [done|].
  intros k Hk. destruct (Hfit k Hk) as (e & -> & _). by eexists.
Qed.

Lemma free_resources_no_bucket timestep self :
  active_flows self !! timestep = None →
  free_resources timestep self = (Ok tt, self).
Proof. intros Hnone. unfold free_resources. by rewrite Hnone. Qed.

Lemma free_resources_bucket timestep flows self :
  active_flows self !! timestep = Some flows →
  (∀ f k, f ∈ flows → k ∈ links f.1 → is_Some (edge (graph self) !! k)) →
  free_resources timestep self =
  (Ok tt,
   with_active_flows
     (with_graph self (shift_used (λ k, - bucket_load flows k) (graph self)))
     (delete timestep (active_flows self))).
Proof.
  intros Hsome Hex. unfold free_resources. rewrite Hsome.
  by rewrite for_free_flow.
Qed.

(** ** Ledger consistency *)

Lemma committed_empty k : committed ∅ k = 0.
Proof. unfold committed. by rewrite map_fold_empty. Qed.

Lemma committed_insert_None af t flows k :
  af !! t = None →
  committed (<[t:=flows]> af) k = bucket_load flows k + committed af k.
Proof.
  intros Hnone. unfold committed. rewrite map_fold_insert_L; [done| |done].
  intros; cbv beta; ring.
Qed.

Lemma committed_delete af t flows k :
  af !! t = Some flows →
  committed af k = bucket_load flows k + committed (delete t af) k.
Proof.
  intros Hsome. unfold committed. rewrite (map_fold_delete_L _ _ t flows af); [done| |done].
  intros; cbv beta; ring.
Qed.

Lemma committed_setdefault_append af t f k :
  committed (<[t := default [] (af !! t) ++ [f]]> af) k =
  committed af k + load (links f.1) f.2 k.
Proof.
  destruct (af !! t) as [bucket|] eqn:Ht; simpl.
  - rewrite <- insert_delete_eq, committed_insert_None by apply lookup_delete_eq.
    rewrite (committed_delete af t bucket) by done.
    rewrite bucket_load_snoc. ring.
  - rewrite committed_insert_None by done.
    rewrite bucket_load_cons. unfold bucket_load at 1; simpl. ring.
Qed.

Lemma committed_nonneg af k :
  (∀ t flows f, af !! t = Some flows → f ∈ flows → 0 ≤ f.2) →
  0 ≤ committed af k.
Proof.
  unfold committed.
  apply (map_fold_weak_ind
           (λ r m, (∀ t flows f, m !! t = Some flows → f ∈ flows → 0 ≤ f.2) → 0 ≤ r)).
  - done.
  - intros t flows m r Hnone IH Hall.
    assert (0 ≤ bucket_load flows k).
    { apply bucket_load_nonneg. intros f. apply (Hall t). by rewrite lookup_insert_eq. }
    assert (0 ≤ r).
    { apply IH. intros t' flows' f Ht'. apply (Hall t').
      rewrite lookup_insert_ne; [done|]. intros ->. by rewrite Hnone in Ht'. }
    qc_lra.
Qed.

Lemma ledger_consistent_bounds self k e :
  ledger_consistent self → edge (graph self) !! k = Some e →
  0 ≤ used e ∧ used e ≤ capacity e.
Proof.
  intros [Hfl Hed] He. destruct (Hed k e He) as [Hc Hu]. split; [|done].
  assert (0 ≤ committed (active_flows self) k).
  { apply committed_nonneg. intros t flows f Ht Hf. by destruct (Hfl t flows f). }
  qc_lra.
Qed.

Lemma ledger_consistent_start self :
  active_flows self = ∅ →
  (∀ k e, edge (graph self) !! k = Some e → 0 ≤ used e ∧ used e ≤ capacity e) →
  ledger_consistent self.
Proof.
  intros Haf Hbounds. split.
  - intros t flows f. by rewrite Haf, lookup_empty.
  - intros k e He. rewrite Haf, committed_empty. by apply (Hbounds k).
Qed.

Lemma allocate_resources_consistent path r whenfree self :
  0 ≤ r → NoDup (links path) → ledger_consistent self →
  ledger_consistent (snd (allocate_resources (Some path) r whenfree self)).
Proof.
  intros Hr Hnd Hinv.
  destruct (decide (path = [])) as [->|Hne]; [done|].
  destruct (links_fit (graph self) r (links path)) as [[|]|e] eqn:Hfit;
    [|unfold allocate_resources; destruct path; [done|by rewrite Hfit]..].
  rewrite links_fit_true in Hfit.
  rewrite allocate_resources_accepted by done. simpl.
  destruct Hinv as [Hfl Hed]. split; simpl.
  - intros t flows f Ht Hf.
    assert (f = (path, r) ∨ ∃ flows', active_flows self !! t = Some flows' ∧ f ∈ flows')
      as [->|(flows' & Ht' & Hf')].
    { destruct (decide (whenfree = t)) as [->|Hne'].
      - rewrite lookup_insert_eq in Ht. injection Ht as <-.
        apply elem_of_app in Hf as [Hf|Hf].
        + right. destruct (active_flows self !! t) as [flows'|]; simpl in Hf.
          * by exists flows'.
          * by apply elem_of_nil in Hf.
        + left. by apply list_elem_of_singleton in Hf.
      - rewrite lookup_insert_ne in Ht by done. right. by exists flows. }
    + split; [done|]. intros k Hk. rewrite map_lookup_imap.
      destruct (Hfit k Hk) as (e & -> & _). by eexists.
    + destruct (Hfl t flows' f Ht' Hf') as [? Hex]. split; [done|].
      intros k Hk. rewrite map_lookup_imap.
      destruct (Hex k Hk) as [e ->]. by eexists.
  - intros k e'. rewrite map_lookup_imap.
    destruct (edge (graph self) !! k) as [e|] eqn:He; [|done]. simpl.
    intros [= <-]; simpl. rewrite committed_setdefault_append; simpl.
    destruct (Hed k e He) as [Hc Hu]. split; [qc_lra|].
    destruct (decide (k ∈ links path)) as [Hk|Hk].
    + rewrite load_NoDup by done. destruct (Hfit k Hk) as (e0 & He0 & Hle).
      rewrite He in He0. by injection He0 as <-.
    + rewrite load_not_elem by done. qc_lra.
Qed.

Lemma free_resources_consistent timestep self :
  ledger_consistent self →
  ledger_consistent (snd (free_resources timestep self)).
Proof.
  intros Hinv. destruct (active_flows self !! timestep) as [flows|] eqn:Ht;
    [|by rewrite free_resources_no_bucket].
  destruct Hinv as [Hfl Hed].
  rewrite (free_resources_bucket timestep flows) by (done || intros; by eapply Hfl).
  split; simpl.
  - intros t flows' f Ht' Hf. apply lookup_delete_Some in Ht' as [_ Ht'].
    destruct (Hfl t flows' f Ht' Hf) as [? Hex]. split; [done|].
    intros k Hk. rewrite map_lookup_imap. destruct (Hex k Hk) as [e ->]. by eexists.
  - intros k e'. rewrite map_lookup_imap.
    destruct (edge (graph self) !! k) as [e|] eqn:He; [|done]. simpl.
    intros [= <-]; simpl. destruct (Hed k e He) as [Hc Hu].
    rewrite (committed_delete _ _ _ k Ht) in Hc.
    assert (0 ≤ bucket_load flows k).
    { apply bucket_load_nonneg. intros f Hf. by destruct (Hfl timestep flows f). }
    split; qc_lra.
Qed.

(** ** Paths *)

Lemma links_cons x y path : links (x :: y :: path) = (x, y) :: links (y :: path).
Proof. done. Qed.

Lemma links_fst path : (links path).*1 = removelast path.
Proof.
  unfold links. apply fst_zip.
  induction path as [|x [|y path] IH]; simpl in *; lia.
Qed.

Lemma elem_of_removelast (x : node) path : x ∈ removelast path → x ∈ path.
Proof.
  induction path as [|y [|z path] IH]; [done|by intros ?%elem_of_nil|].
  change (removelast (y :: z :: path)) with (y :: removelast (z :: path)).
  rewrite !(elem_of_cons _ x y). intros [->|Hx]; [by left|]. right. by apply IH.
Qed.

Lemma NoDup_removelast (path : list node) : NoDup path → NoDup (removelast path).
Proof.
  induction 1 as [|x path Hx Hnd IH]; [constructor|].
  destruct path as [|y path]; [constructor|].
  change (removelast (x :: y :: path)) with (x :: removelast (y :: path)).
  constructor; [|done]. intros Hin. apply Hx. by apply elem_of_removelast.
Qed.

(** A path that visits no node twice crosses no link twice. *)
Lemma NoDup_links path : NoDup path → NoDup (links path).
Proof.
  intros Hnd. apply (NoDup_fmap_1 fst). rewrite links_fst. by apply NoDup_removelast.
Qed.

Lemma map_res_Ok_elem {A B} (f : A → res B) l ys y :
  map_res f l = Ok ys → y ∈ ys → ∃ x, x ∈ l ∧ f x = Ok y.
Proof.
  revert ys; induction l as [|x l IH]; intros ys; simpl.
  - intros [= <-]. by rewrite elem_of_nil.
  - destruct (f x) as [y'|] eqn:Hfx; [|done]. simpl.
    destruct (map_res f l) as [ys'|]; [|done]. simpl. intros [= <-].
    rewrite elem_of_cons. intros [->|Hy].
    + exists x. split; [left|done].
    + destruct (IH ys' eq_refl Hy) as (x' & ? & ?). exists x'. split; [by right|done].
Qed.

Section SimulationProperties.

Variable shortest_path : DiGraph → node → node → res (list node).
Variable global_i_bound : bool.

Abbreviation link_metrics' := (link_metrics global_i_bound).
Abbreviation best_path' := (best_path global_i_bound).
Abbreviation handle_request' := (handle_request shortest_path global_i_bound).
Abbreviation handle_req' := (handle_req shortest_path global_i_bound).
Abbreviation timestep' := (timestep shortest_path global_i_bound).
Abbreviation run' := (run shortest_path global_i_bound).

(** The selected path is one of the candidates. *)
Lemma best_path_elem self g util paths best r p :
  best_path' self g util paths best = Ok r → r.1 = Some p →
  p ∈ paths ∨ best.1 = Some p.
Proof.
  revert best; induction paths as [|path paths IH]; intros [bp bm]; simpl.
  - intros [= <-]. by right.
  - destruct (link_metrics' self g util (links path) []) as [lm|]; [|done]. simpl.
    destruct (py_max lm) as [pm|]; [|done]. simpl.
    destruct (decide (pm < bm)); intros Hr Hp;
      destruct (IH _ Hr Hp) as [?|Hb]; try (left; by right); simpl in Hb.
    + injection Hb as ->. left; left.
    + by right.
Qed.

Lemma handle_request_Some self sim_graph sw util duration p :
  handle_request' self sim_graph sw util duration = Ok (Some p) →
  ∃ srv, srv ∈ ctrl_servers self ∧
         shortest_path (deref sim_graph (ctrl_graph self)) srv sw = Ok p.
Proof.
  unfold handle_request.
  destruct (map_res _ (ctrl_servers self)) as [paths|] eqn:Hpaths; [|done]. simpl.
  destruct (best_path' _ _ _ paths _) as [best|] eqn:Hbest; [|done]. simpl.
  intros [= Hp]. destruct (best_path_elem _ _ _ _ _ _ _ Hbest Hp) as [Hin|?]; [|done].
  by apply (map_res_Ok_elem _ _ _ _ Hpaths).
Qed.

Lemma handle_req_consistent i sw size duration self :
  simple_paths shortest_path → 0 ≤ size → ledger_consistent self →
  ledger_consistent (snd (handle_req' i (sw, size, duration) self)).
Proof.
  intros Hsp Hsize Hinv. unfold handle_req.
  destruct (decide (0 < duration)%Z); [|done].
  destruct (sw_to_ctrl self !! sw) as [ctrl|]; [|done].
  destruct (handle_request' ctrl (graph self) sw size duration) as [[p|]|] eqn:Hreq;
    [|done..].
  apply allocate_resources_consistent; [done| |done].
  apply NoDup_links. apply handle_request_Some in Hreq as (srv & _ & Hp).
  by eapply Hsp.
Qed.

Lemma timestep_consistent i (reqs : list request) st :
  simple_paths shortest_path → (∀ sw size duration, (sw, size, duration) ∈ reqs → 0 ≤ size) →
  ledger_consistent st.1 →
  ledger_consistent (snd (timestep' (i, reqs) st)).1.
Proof.
  intros Hsp Hsizes Hinv. destruct st as [self all_metrics]; simpl in *.
  pose proof (free_resources_consistent i self Hinv) as H1.
  destruct (free_resources i self) as [[[]|e] self1]; simpl in *; [|done].
  assert (ledger_consistent (snd (for_ reqs (handle_req' i) self1))) as H2.
  { apply for_preserves; [|done]. intros [[sw size] duration] s Hin Hs.
    apply handle_req_consistent; [done| |done]. by eapply Hsizes. }
  destruct (for_ reqs (handle_req' i) self1) as [[[]|e] self2]; simpl in *; [|done].
  by destruct (for_ (metric_fcns self2) (record_metric self2) all_metrics).
Qed.

Lemma elem_of_enumerate {A} (l : list A) i x :
  (i, x) ∈ enumerate l → x ∈ l.
Proof.
  unfold enumerate. rewrite list_elem_of_lookup. intros [n Hn].
  rewrite list_lookup_imap in Hn. destruct (l !! n) as [y|] eqn:Hy; [|done].
  simpl in Hn. injection Hn as _ ->. by eapply list_elem_of_lookup_2.
Qed.

Lemma run_consistent workload self :
  simple_paths shortest_path → nonneg_sizes workload → ledger_consistent self →
  ledger_consistent (snd (run' workload self)).
Proof.
  intros Hsp Hsizes Hinv. unfold run.
  match goal with |- context [for_ ?l ?b ?s] =>
    assert (ledger_consistent (snd (for_ l b s)).1) as Hfin end.
  { apply (for_preserves (λ st, ledger_consistent st.1)); [|done].
    intros [i reqs] st Hin Hst. apply timestep_consistent; [done| |done].
    intros sw size duration. apply Hsizes. by eapply elem_of_enumerate. }
  match goal with |- context [for_ ?l ?b ?s] =>
    destruct (for_ l b s) as [[[]|e] [self' all_metrics']] end; done.
Qed.

End SimulationProperties.

(** ** Sums of rationals *)

Lemma foldl_Qcplus a l : foldl Qcplus a l = a + Qc_sum l.
Proof.
  unfold Qc_sum. revert a; induction l as [|x l IH]; intros a; simpl.
  - ring.
  - rewrite (IH (a + x)), (IH (0 + x)). ring.
Qed.

Lemma Qc_sum_nil : Qc_sum [] = 0.
Proof. done. Qed.

Lemma Qc_sum_cons x l : Qc_sum (x :: l) = x + Qc_sum l.
Proof. unfold Qc_sum at 1; simpl. rewrite foldl_Qcplus. ring. Qed.

Lemma Qc_sum_app l1 l2 : Qc_sum (l1 ++ l2) = Qc_sum l1 + Qc_sum l2.
Proof.
  induction l1 as [|x l1 IH]; simpl.
  - rewrite Qc_sum_nil. ring.
  - rewrite !Qc_sum_cons, IH. ring.
Qed.

Lemma Qc_sum_perm l1 l2 : l1 ≡ₚ l2 → Qc_sum l1 = Qc_sum l2.
Proof.
  induction 1 as [|x l1 l2 _ IH|x y l|l1 l2 l3 _ IH1 _ IH2].
  - done.
  - by rewrite !Qc_sum_cons, IH.
  - rewrite !Qc_sum_cons. ring.
  - by rewrite IH1.
Qed.

Lemma Qc_abs_sqr x : Qc_abs x ^ 2 = x * x.
Proof. unfold Qc_abs. destruct (decide (x < 0)); simpl; ring. Qed.

(** ** The computation shared by the two metrics *)

Lemma deviation_value_Ok used_total cap_total capacity used :
  cap_total ≠ 0 →
  deviation_value used_total cap_total (capacity, used) =
  Ok ((used - (used_total / cap_total) * capacity) *
      (used - (used_total / cap_total) * capacity)).
Proof.
  intros Hnz. unfold deviation_value. rewrite decide_False by done.
  by rewrite Qc_abs_sqr.
Qed.

Lemma map_res_deviation_value used_total cap_total pairs :
  map_res (deviation_value used_total cap_total) pairs =
  match pairs with
  | [] => Ok []
  | _ =>
      if decide (cap_total = 0) then Raise ZeroDivisionError
      else Ok ((λ '(capacity, used),
                  (used - (used_total / cap_total) * capacity) *
                  (used - (used_total / cap_total) * capacity)) <$> pairs)
  end.
Proof.
  destruct (decide (cap_total = 0)) as [Hz|Hnz].
  - destruct pairs as [|[c u] pairs]; [done|]. simpl. by rewrite decide_True.
  - induction pairs as [|[c u] pairs IH]; [done|]. cbn [map_res].
    rewrite deviation_value_Ok, IH by done. by destruct pairs.
Qed.

(** The accumulators of the first loop of [rmse_links]. *)
Lemma rmse_links_totals (l : list (node * node * edge_attrs)) ut ct ps :
  foldl (λ '(used_total, cap_total, pairs) '(_, attrs),
           (used_total + used attrs, cap_total + capacity attrs,
            pairs ++ [(capacity attrs, used attrs)]))
        (ut, ct, ps) l =
  (ut + Qc_sum ((λ ke, used ke.2) <$> l),
   ct + Qc_sum ((λ ke, capacity ke.2) <$> l),
   ps ++ ((λ ke, (capacity ke.2, used ke.2)) <$> l)).
Proof.
  revert ut ct ps; induction l as [|[k e] l IH]; intros ut ct ps; simpl.
  - by rewrite Qc_sum_nil, app_nil_r, !Qcplus_0_r.
  - by rewrite IH, !Qc_sum_cons, <- app_assoc, !Qcplus_assoc.
Qed.

Lemma rmse_links_pairs self graph_arg :
  rmse_links self graph_arg =
  ideal_split_rmse (edge_pairs (graph_or_self self graph_arg)).
Proof.
  unfold rmse_links, edge_pairs. rewrite rmse_links_totals. simpl.
  rewrite map_res_deviation_value.
  set (l := map_to_list (edge (graph_or_self self graph_arg))).
  destruct l as [|[k e] l]; [done|].
  unfold ideal_split_rmse, sq_deviations.
  rewrite <- !list_fmap_compose.
  replace (0 + Qc_sum ((λ ke, capacity ke.2) <$> (k, e) :: l))
    with (Qc_sum (fst ∘ (λ ke : node * node * edge_attrs, (capacity ke.2, used ke.2))
                    <$> (k, e) :: l)) by (unfold compose; simpl; ring).
  replace (0 + Qc_sum ((λ ke, used ke.2) <$> (k, e) :: l))
    with (Qc_sum (snd ∘ (λ ke : node * node * edge_attrs, (capacity ke.2, used ke.2))
                    <$> (k, e) :: l)) by (unfold compose; simpl; ring).
  simpl. by destruct (decide _).
Qed.

(** ** [rmse_links] against its formula *)

Lemma ideal_split_rmse_edge_pairs g :
  cap_total g ≠ 0 → ideal_split_rmse (edge_pairs g) = Ok (rmse_links_formula g).
Proof.
  intros Hct. unfold ideal_split_rmse, rmse_links_formula, sq_deviations.
  assert ((edge_pairs g).*1 = (λ ke, capacity ke.2) <$> map_to_list (edge g)) as H1.
  { unfold edge_pairs. by rewrite <- list_fmap_compose. }
  assert ((edge_pairs g).*2 = (λ ke, used ke.2) <$> map_to_list (edge g)) as H2.
  { unfold edge_pairs. by rewrite <- list_fmap_compose. }
  rewrite H1, H2. fold (cap_total g) (used_total g).
  assert (((λ '(capacity, used),
              (used - used_total g / cap_total g * capacity) *
              (used - used_total g / cap_total g * capacity)) <$> edge_pairs g) =
          ((λ ke, (used ke.2 - used_total g / cap_total g * capacity ke.2) ^ 2)
             <$> map_to_list (edge g))) as ->.
  { unfold edge_pairs. rewrite <- list_fmap_compose. apply list_fmap_ext.
    intros i ke _. simpl. ring. }
  destruct (edge_pairs g) eqn:Hp.
  - unfold edge_pairs in Hp. apply fmap_nil_inv in Hp. by rewrite Hp.
  - by rewrite decide_False.
Qed.

Lemma sqrt_Q2R_2500 : sqrt (Q2R (Qc_of_Z 2500)) = 50%R.
Proof.
  replace (Q2R (Qc_of_Z 2500)) with (50 * 50)%R.
  - apply sqrt_square. Lra.lra.
  - unfold Q2R. simpl. Lra.lra.
Qed.



(** ** [rmse_servers] *)

Lemma neighbors_Ok g s ns v :
  neighbors g s = Ok ns → v ∈ ns ↔ is_Some (edge g !! (s, v)).
Proof.
  unfold neighbors. destruct (node_attr g !! s); [|done]. intros [= <-].
  rewrite list_elem_of_omap. split.
  - intros ([[u v'] e] & Hin & Hsel). apply elem_of_map_to_list in Hin.
    destruct (decide (u = s)) as [->|]; [|done]. injection Hsel as ->. by eexists.
  - intros [e He]. exists ((s, v), e). split; [by apply elem_of_map_to_list|].
    by rewrite decide_True.
Qed.

Lemma server_edge_Some g s dst :
  neighbors g s = Ok [dst] → ∃ e, edge g !! (s, dst) = Some e ∧
                                  server_edge g s = Some ((s, dst), e).
Proof.
  intros Hn. destruct (proj1 (neighbors_Ok g s [dst] dst Hn)) as [e He]; [left|].
  exists e. split; [done|]. unfold server_edge. by rewrite Hn, He.
Qed.

Lemma server_pairs_Ok g srvs ut ct ps :
  (∀ s, s ∈ srvs → ∃ dst, neighbors g s = Ok [dst]) →
  server_pairs g srvs (ut, ct, ps) =
  Ok (ut + Qc_sum ((λ ke, used ke.2) <$> omap (server_edge g) srvs),
      ct + Qc_sum ((λ ke, capacity ke.2) <$> omap (server_edge g) srvs),
      ps ++ ((λ ke, (capacity ke.2, used ke.2)) <$> omap (server_edge g) srvs)).
Proof.
  revert ut ct ps; induction srvs as [|s srvs IH]; intros ut ct ps Hall.
  - simpl. by rewrite Qc_sum_nil, app_nil_r, !Qcplus_0_r.
  - destruct (Hall s) as [dst Hn]; [left|].
    destruct (server_edge_Some g s dst Hn) as (e & He & Hse).
    cbn [server_pairs omap list_omap]. rewrite Hn, He, Hse.
    rewrite IH by (intros; apply Hall; by right).
    rewrite !fmap_cons, !Qc_sum_cons, <- app_assoc. simpl.
    by rewrite !Qcplus_assoc.
Qed.

(** A server without exactly one neighbor stops the loop with an exception. *)
Lemma server_pairs_Raise g srvs acc s ns :
  s ∈ srvs → neighbors g s = Ok ns → length ns ≠ 1%nat →
  ∃ e, server_pairs g srvs acc = Raise e ∧
       ((∀ s', s' ∈ srvs → is_Some (node_attr g !! s')) → e = NotImplementedError).
Proof.
  intros Hs Hn Hlen. revert acc; induction srvs as [|s' srvs IH]; intros [[ut ct] ps].
  { by apply elem_of_nil in Hs. }
  cbn [server_pairs].
  destruct (neighbors g s') as [ns'|e'] eqn:Hn'.
  - destruct ns' as [|dst [|dst' ns']].
    + eexists; split; [done|done].
    + apply elem_of_cons in Hs as [->|Hs].
      { rewrite Hn in Hn'. injection Hn' as ->. done. }
      destruct (server_edge_Some g s' dst Hn') as (e & -> & _).
      destruct (IH Hs (ut + used e, ct + capacity e, ps ++ [(capacity e, used e)]))
        as (e' & -> & He').
      exists e'. split; [done|]. intros Hnodes. apply He'. intros; apply Hnodes. by right.
    + eexists; split; [done|done].
  - exists e'. split; [done|]. intros Hnodes. destruct (Hnodes s') as [a Ha]; [left|].
    unfold neighbors in Hn'. by rewrite Ha in Hn'.
Qed.

Lemma rmse_servers_pairs self graph_arg :
  let g := graph_or_self self graph_arg in
  (∀ s, s ∈ servers self → ∃ dst, neighbors g s = Ok [dst]) →
  rmse_servers self graph_arg =
  ideal_split_rmse ((λ ke, (capacity ke.2, used ke.2))
                      <$> omap (server_edge g) (servers self)).
Proof.
  intros g Hall. unfold rmse_servers. fold g.
  rewrite server_pairs_Ok by done. simpl.
  rewrite map_res_deviation_value.
  set (l := omap (server_edge g) (servers self)).
  destruct l as [|[k e] l]; [done|].
  unfold ideal_split_rmse, sq_deviations.
  rewrite <- !list_fmap_compose.
  replace (0 + Qc_sum ((λ ke, capacity ke.2) <$> (k, e) :: l))
    with (Qc_sum (fst ∘ (λ ke : node * node * edge_attrs, (capacity ke.2, used ke.2))
                    <$> (k, e) :: l)) by (unfold compose; simpl; ring).
  replace (0 + Qc_sum ((λ ke, used ke.2) <$> (k, e) :: l))
    with (Qc_sum (snd ∘ (λ ke : node * node * edge_attrs, (capacity ke.2, used ke.2))
                    <$> (k, e) :: l)) by (unfold compose; simpl; ring).
  simpl. by destruct (decide _).
Qed.

Lemma ideal_split_rmse_perm pairs1 pairs2 :
  pairs1 ≡ₚ pairs2 → ideal_split_rmse pairs1 = ideal_split_rmse pairs2.
Proof.
  intros Hp. unfold ideal_split_rmse, sq_deviations.
  assert (Qc_sum pairs1.*1 = Qc_sum pairs2.*1) as H1 by (by apply Qc_sum_perm, fmap_Permutation).
  assert (Qc_sum pairs1.*2 = Qc_sum pairs2.*2) as H2 by (by apply Qc_sum_perm, fmap_Permutation).
  rewrite H1, H2.
  match goal with |- context [Qc_sum (?f <$> pairs1)] =>
    assert (Qc_sum (f <$> pairs1) = Qc_sum (f <$> pairs2)) as ->
      by (by apply Qc_sum_perm, fmap_Permutation) end.
  destruct pairs1, pairs2; try done.
  - by apply Permutation_nil_cons in Hp.
  - symmetry in Hp. by apply Permutation_nil_cons in Hp.
Qed.

Lemma server_edges_perm g srvs :
  NoDup srvs → (∀ s, s ∈ srvs → ∃ dst, neighbors g s = Ok [dst]) →
  omap (server_edge g) srvs ≡ₚ map_to_list (edge (server_links srvs g)).
Proof.
  intros Hnd Hall. apply NoDup_Permutation.
  - apply (NoDup_fmap_1 (λ ke, ke.1.1)).
    assert ((λ ke, ke.1.1) <$> omap (server_edge g) srvs = srvs) as ->; [|done].
    clear Hnd. induction srvs as [|s srvs IH]; [done|].
    destruct (Hall s) as [dst Hn]; [left|].
    destruct (server_edge_Some g s dst Hn) as (e & _ & Hse).
    cbn [omap list_omap]. rewrite Hse. rewrite fmap_cons. simpl. f_equal.
    apply IH. intros; apply Hall; by right.
  - apply NoDup_map_to_list.
  - intros [[u v] e]. rewrite list_elem_of_omap, elem_of_map_to_list. simpl.
    rewrite map_lookup_filter_Some. simpl. split.
    + intros (s & Hs & Hse). destruct (Hall s Hs) as [dst Hn].
      destruct (server_edge_Some g s dst Hn) as (e' & He' & Hse').
      rewrite Hse in Hse'. injection Hse' as -> -> ->. done.
    + intros [He Hu]. exists u. split; [done|]. destruct (Hall u Hu) as [dst Hn].
      destruct (server_edge_Some g u dst Hn) as (e' & He' & Hse').
      assert (v ∈ [dst]) as Hv by (apply (neighbors_Ok g u _ v Hn); by eexists).
      apply list_elem_of_singleton in Hv as ->. rewrite He in He'. by injection He' as <-.
Qed.

(** [C9] When some server has no neighbor or more than one, [rmse_servers]
    raises instead of returning a number ([NotImplementedError] when every
    server is a node of the graph); when every server has exactly one
    neighbor, it returns what [rmse_links] returns on the graph restricted to
    the edges from the servers to their neighbors. *)
Theorem rmse_servers_correct self graph_arg :
  let g := graph_or_self self graph_arg in
  ((∃ s ns, s ∈ servers self ∧ neighbors g s = Ok ns ∧ length ns ≠ 1%nat) →
   ∃ e, rmse_servers self graph_arg = Raise e ∧
        ((∀ s, s ∈ servers self → is_Some (node_attr g !! s)) →
         e = NotImplementedError)) ∧
  (NoDup (servers self) →
   (∀ s, s ∈ servers self → ∃ dst, neighbors g s = Ok [dst]) →
   rmse_servers self graph_arg =
   rmse_links (with_graph self (server_links (servers self) g)) None).
Proof.
  intros g. split.
  - intros (s & ns & Hs & Hn & Hlen). unfold rmse_servers. fold g.
    destruct (server_pairs_Raise g (servers self) (0, 0, []) s ns Hs Hn Hlen)
      as (e & -> & He).
    by exists e.
  - intros Hnd Hall. rewrite rmse_servers_pairs by done. fold g.
    rewrite rmse_links_pairs. simpl. unfold edge_pairs.
    apply ideal_split_rmse_perm, fmap_Permutation. by apply server_edges_perm.
Qed.

(** ** The ledger operations *)

Lemma LinkBalancerSim_eq (s1 s2 : LinkBalancerSim) :
  graph s1 = graph s2 → active_flows s1 = active_flows s2 →
  servers s1 = servers s2 → sw_to_ctrl s1 = sw_to_ctrl s2 →
  metric_fcns s1 = metric_fcns s2 → s1 = s2.
Proof. destruct s1, s2; simpl. by intros -> -> -> -> ->. Qed.

(** [C10] A path of exactly one node has no links: the call leaves the
    graph as it is and still appends a flow for that path to the bucket of the
    expiry timestep. *)
Theorem allocate_resources_single_node x resources whenfree self :
  allocate_resources (Some [x]) resources whenfree self =
  (Ok tt,
   with_active_flows self
     (<[whenfree := default [] (active_flows self !! whenfree)
                      ++ [([x], resources)]]> (active_flows self))).
Proof. by destruct self. Qed.

(** [C8] Freeing a timestep that has no bucket changes nothing.  Freeing a
    timestep that has one subtracts, for every flow of the bucket, its
    resources from [used] on every link of its path and removes the bucket;
    nothing is checked, so [used] goes below zero whenever the bucket holds
    more than the edge carries, and no exception is raised. *)
Theorem free_resources_unchecked timestep self :
  (active_flows self !! timestep = None →
   free_resources timestep self = (Ok tt, self)) ∧
  (∀ flows,
     active_flows self !! timestep = Some flows →
     (∀ f k, f ∈ flows → k ∈ links f.1 → is_Some (edge (graph self) !! k)) →
     ∃ self',
       free_resources timestep self = (Ok tt, self') ∧
       (∀ k, edge (graph self') !! k =
             (λ e, {| capacity := capacity e;
                      used := used e - bucket_load flows k |})
               <$> edge (graph self) !! k) ∧
       active_flows self' = delete timestep (active_flows self)).
Proof.
  split; [apply free_resources_no_bucket|].
  intros flows Hsome Hex. eexists. split; [by apply free_resources_bucket|].
  split; [|done]. intros k. apply lookup_shift_used.
Qed.

(** ** The ledger over binary64 floats *)

Lemma crossings_links path k :
  crossings path k =
  foldr (λ l acc, ((if decide (l = k) then 1 else 0) + acc)%nat) 0%nat (links path).
Proof.
  induction path as [|u [|v path] IH]; [done..|].
  rewrite links_cons. cbn [foldr]. rewrite <- IH. done.
Qed.

Lemma crossings_pos path k : (0 < crossings path k)%nat ↔ k ∈ links path.
Proof.
  rewrite crossings_links. induction (links path) as [|l ls IH]; simpl.
  - rewrite elem_of_nil. lia.
  - rewrite elem_of_cons. destruct (decide (l = k)) as [->|Hne].
    + split; [by left|lia].
    + rewrite <- IH. split; [intros; right; lia|]. intros [->|?]; [done|lia].
Qed.

Lemma binary64_DiGraph_eq (g1 g2 : Binary64.DiGraph) :
  Binary64.node_attr g1 = Binary64.node_attr g2 →
  Binary64.edge g1 = Binary64.edge g2 → g1 = g2.
Proof. destruct g1, g2; simpl. by intros -> ->. Qed.

Lemma lookup_map_used f g k :
  Binary64.edge (map_used f g) !! k =
  (λ e, {| Binary64.capacity := Binary64.capacity e;
           Binary64.used := f k (Binary64.used e) |}) <$> Binary64.edge g !! k.
Proof. unfold map_used; cbn [Binary64.edge]. rewrite map_lookup_imap. by destruct (_ !! k). Qed.

Lemma map_used_id f g : (∀ k u, f k u = u) → map_used f g = g.
Proof.
  intros Hf. apply binary64_DiGraph_eq; [done|]. apply map_eq. intros k.
  rewrite lookup_map_used. destruct (Binary64.edge g !! k) as [[c u]|]; [|done].
  simpl. by rewrite Hf.
Qed.

Lemma map_used_ext f h g : (∀ k u, f k u = h k u) → map_used f g = map_used h g.
Proof.
  intros Hfh. apply binary64_DiGraph_eq; [done|]. apply map_eq. intros k.
  rewrite !lookup_map_used. destruct (Binary64.edge g !! k) as [[c u]|]; [|done].
  simpl. by rewrite Hfh.
Qed.

(** The second loop of [allocate_resources]. *)
Lemma binary64_add_used_loop ls r g :
  (∀ k, k ∈ ls → is_Some (Binary64.edge g !! k)) →
  for_ ls (Binary64.add_used r) g =
  (Ok tt,
   map_used (λ k, add_times
               (foldr (λ l acc, ((if decide (l = k) then 1 else 0) + acc)%nat) 0%nat ls) r)
            g).
Proof.
  revert g; induction ls as [|l ls IH]; intros g Hls.
  - simpl. by rewrite map_used_id.
  - cbn [for_]. unfold M_bind, Binary64.add_used at 1.
    destruct (Hls l) as [e He]; [left|]. rewrite He. rewrite IH.
    2:{ intros k Hk. unfold Binary64.set_used; simpl.
        destruct (decide (k = l)) as [->|Hne].
        - rewrite lookup_alter_eq, He. by eexists.
        - rewrite lookup_alter_ne by done. apply Hls. by right. }
    f_equal. apply binary64_DiGraph_eq; [done|]. apply map_eq. intros k.
    rewrite !lookup_map_used. unfold Binary64.set_used; simpl.
    destruct (decide (l = k)) as [->|Hne].
    + rewrite lookup_alter_eq, He. simpl. f_equal. f_equal. unfold add_times.
      apply (Nat.iter_swap _ float (λ x, (x + r)%float)).
    + by rewrite lookup_alter_ne by done.
Qed.

(** The loop of [free_resources] over the links of one flow. *)
Lemma binary64_sub_used_loop ls r g :
  (∀ k, k ∈ ls → is_Some (Binary64.edge g !! k)) →
  for_ ls (Binary64.sub_used r) g =
  (Ok tt,
   map_used (λ k, sub_times
               (foldr (λ l acc, ((if decide (l = k) then 1 else 0) + acc)%nat) 0%nat ls) r)
            g).
Proof.
  revert g; induction ls as [|l ls IH]; intros g Hls.
  - simpl. by rewrite map_used_id.
  - cbn [for_]. unfold M_bind, Binary64.sub_used at 1.
    destruct (Hls l) as [e He]; [left|]. rewrite He. rewrite IH.
    2:{ intros k Hk. unfold Binary64.set_used; simpl.
        destruct (decide (k = l)) as [->|Hne].
        - rewrite lookup_alter_eq, He. by eexists.
        - rewrite lookup_alter_ne by done. apply Hls. by right. }
    f_equal. apply binary64_DiGraph_eq; [done|]. apply map_eq. intros k.
    rewrite !lookup_map_used. unfold Binary64.set_used; simpl.
    destruct (decide (l = k)) as [->|Hne].
    + rewrite lookup_alter_eq, He. simpl. f_equal. f_equal. unfold sub_times.
      apply (Nat.iter_swap _ float (λ x, (x - r)%float)).
    + by rewrite lookup_alter_ne by done.
Qed.

(** The first loop of [allocate_resources]. *)
Lemma binary64_links_fit_true g r ls :
  (∀ k, k ∈ ls →
        ∃ e, Binary64.edge g !! k = Some e ∧
             (Binary64.capacity e <? Binary64.used e + r)%float = false) →
  Binary64.links_fit g r ls = Ok true.
Proof.
  induction ls as [|[src dst] ls IH]; intros Hall; [done|]. simpl.
  destruct (Hall (src, dst)) as (e & -> & ->); [left|].
  apply IH. intros k Hk. apply Hall. by right.
Qed.

Lemma binary64_links_fit_false g r ls :
  (∀ k, k ∈ ls → is_Some (Binary64.edge g !! k)) →
  (∃ k e, k ∈ ls ∧ Binary64.edge g !! k = Some e ∧
          (Binary64.capacity e <? Binary64.used e + r)%float = true) →
  Binary64.links_fit g r ls = Ok false.
Proof.
  induction ls as [|[src dst] ls IH]; intros Hex (k & e & Hk & He & Hlt); simpl.
  - by apply elem_of_nil in Hk.
  - destruct (Hex (src, dst)) as [e' He']; [left|]. rewrite He'.
    destruct (Binary64.capacity e' <? Binary64.used e' + r)%float eqn:Hcmp; [done|].
    apply IH; [intros; apply Hex; by right|].
    apply elem_of_cons in Hk as [->|Hk]; [congruence|]. by exists k, e.
Qed.

Lemma binary64_allocate_resources_accepted path r whenfree self :
  path ≠ [] →
  (∀ k, (0 < crossings path k)%nat →
        ∃ e, Binary64.edge (Binary64.graph self) !! k = Some e ∧
             (Binary64.capacity e <? Binary64.used e + r)%float = false) →
  Binary64.allocate_resources (Some path) r whenfree self =
  (Ok tt,
   Binary64.with_active_flows
     (Binary64.with_graph self
        (map_used (λ k, add_times (crossings path k) r) (Binary64.graph self)))
     (<[whenfree := default [] (Binary64.active_flows self !! whenfree) ++ [(path, r)]]>
        (Binary64.active_flows self))).
Proof.
  intros Hne Hfit. unfold Binary64.allocate_resources.
  destruct path as [|x path]; [done|].
  rewrite binary64_links_fit_true by (intros k Hk; by apply Hfit, crossings_pos).
  rewrite binary64_add_used_loop.
  - rewrite (map_used_ext _ (λ k, add_times (crossings (x :: path) k) r)); [done|].
    intros k u. by rewrite crossings_links.
  - intros k Hk. destruct (Hfit k) as (e & -> & _); [by apply crossings_pos|by eexists].
Qed.

Lemma binary64_free_resources_no_bucket timestep self :
  Binary64.active_flows self !! timestep = None →
  Binary64.free_resources timestep self = (Ok tt, self).
Proof. intros Hnone. unfold Binary64.free_resources. by rewrite Hnone. Qed.

Lemma binary64_LinkBalancerSim_eq (s1 s2 : Binary64.LinkBalancerSim) :
  Binary64.graph s1 = Binary64.graph s2 →
  Binary64.active_flows s1 = Binary64.active_flows s2 →
  Binary64.servers s1 = Binary64.servers s2 →
  Binary64.sw_to_ctrl s1 = Binary64.sw_to_ctrl s2 →
  Binary64.metric_fcns s1 = Binary64.metric_fcns s2 → s1 = s2.
Proof. destruct s1, s2; simpl. by intros -> -> -> -> ->. Qed.

Ltac binary64_fields :=
  unfold Binary64.with_active_flows, Binary64.with_graph;
  cbn [Binary64.graph Binary64.active_flows Binary64.servers Binary64.sw_to_ctrl
       Binary64.metric_fcns].

(** Freeing a bucket that holds a single flow. *)
Lemma binary64_free_resources_single timestep path r self :
  Binary64.active_flows self !! timestep = Some [(path, r)] →
  (∀ k, (0 < crossings path k)%nat → is_Some (Binary64.edge (Binary64.graph self) !! k)) →
  Binary64.free_resources timestep self =
  (Ok tt,
   Binary64.with_active_flows
     (Binary64.with_graph self
        (map_used (λ k, sub_times (crossings path k) r) (Binary64.graph self)))
     (delete timestep (Binary64.active_flows self))).
Proof.
  intros Hsome Hex. unfold Binary64.free_resources. rewrite Hsome.
  cbn [for_ Binary64.free_flow]. unfold M_bind.
  rewrite binary64_sub_used_loop by (intros k Hk; by apply Hex, crossings_pos).
  rewrite (map_used_ext _ (λ k, sub_times (crossings path k) r)); [done|].
  intros k u. by rewrite crossings_links.
Qed.

(** [C4] [allocate_resources] is all or nothing.  For a path whose links
    are edges of the graph: an absent or empty path is a no-op; if on some
    link the float sum [used + resources] compares greater than the
    capacity, the call changes neither the graph nor the ledger, so that
    freeing the expiry timestep afterwards does nothing unless an earlier
    allocation already recorded a bucket there; if on no link it does, the
    call adds the amount to [used] on every link of the path, once per
    crossing and in float arithmetic, leaves every other edge and all
    capacities alone and appends the flow to the bucket of its expiry. *)
Theorem allocate_resources_atomic path resources whenfree self :
  (∀ k, (0 < crossings path k)%nat →
        is_Some (Binary64.edge (Binary64.graph self) !! k)) →
  Binary64.allocate_resources None resources whenfree self = (Ok tt, self) ∧
  Binary64.allocate_resources (Some []) resources whenfree self = (Ok tt, self) ∧
  ((∃ k e, (0 < crossings path k)%nat ∧
           Binary64.edge (Binary64.graph self) !! k = Some e ∧
           (Binary64.capacity e <? Binary64.used e + resources)%float = true) →
   Binary64.allocate_resources (Some path) resources whenfree self = (Ok tt, self) ∧
   (Binary64.active_flows self !! whenfree = None →
    Binary64.free_resources whenfree
      (snd (Binary64.allocate_resources (Some path) resources whenfree self)) =
    (Ok tt, self))) ∧
  (path ≠ [] →
   (∀ k e, (0 < crossings path k)%nat →
           Binary64.edge (Binary64.graph self) !! k = Some e →
           (Binary64.capacity e <? Binary64.used e + resources)%float = false) →
   ∃ self',
     Binary64.allocate_resources (Some path) resources whenfree self = (Ok tt, self') ∧
     (∀ k, Binary64.edge (Binary64.graph self') !! k =
           (λ e, {| Binary64.capacity := Binary64.capacity e;
                    Binary64.used :=
                      add_times (crossings path k) resources (Binary64.used e) |})
             <$> Binary64.edge (Binary64.graph self) !! k) ∧
     Binary64.node_attr (Binary64.graph self') = Binary64.node_attr (Binary64.graph self) ∧
     Binary64.active_flows self' =
       <[whenfree := default [] (Binary64.active_flows self !! whenfree)
                       ++ [(path, resources)]]> (Binary64.active_flows self) ∧
     Binary64.servers self' = Binary64.servers self ∧
     Binary64.sw_to_ctrl self' = Binary64.sw_to_ctrl self ∧
     Binary64.metric_fcns self' = Binary64.metric_fcns self).
Proof.
  intros Hex. split; [done|]. split; [done|]. split.
  - intros (k & e & Hk & He & Hover).
    assert (Binary64.allocate_resources (Some path) resources whenfree self
            = (Ok tt, self)) as Hrej.
    { unfold Binary64.allocate_resources. destruct path as [|x path]; [done|].
      rewrite binary64_links_fit_false; [done| |].
      - intros k' Hk'. by apply Hex, crossings_pos.
      - exists k, e. split; [by apply crossings_pos|done]. }
    rewrite Hrej. split; [done|]. apply binary64_free_resources_no_bucket.
  - intros Hne Hfit. eexists. split.
    + apply binary64_allocate_resources_accepted; [done|]. intros k Hk.
      destruct (Hex k Hk) as [e He]. exists e. split; [done|]. by apply (Hfit k).
    + binary64_fields. split; [apply lookup_map_used|done].
Qed.

(** [C3] Provided the ledger holds no bucket for [e] beforehand, allocating
    [a] along a path of at least two nodes whose links all pass the room
    check, and then freeing [e], leaves the ledger, the nodes, the
    capacities and every edge off the path as they were, and leaves on each
    link of the path the float value [(used + a) - a] (the additions, then
    the subtractions, once per crossing).  Whenever that value is [used] on
    every link of the path, the simulation object is exactly what it was,
    and so is anything computed from its graph. *)
Theorem allocate_then_free_round_trip path a e self :
  (2 ≤ length path)%nat →
  (∀ k, (0 < crossings path k)%nat →
        ∃ ed, Binary64.edge (Binary64.graph self) !! k = Some ed ∧
              (Binary64.capacity ed <? Binary64.used ed + a)%float = false) →
  Binary64.active_flows self !! e = None →
  ∃ mid after,
    Binary64.allocate_resources (Some path) a e self = (Ok tt, mid) ∧
    Binary64.free_resources e mid = (Ok tt, after) ∧
    Binary64.active_flows after = Binary64.active_flows self ∧
    Binary64.active_flows after !! e = None ∧
    Binary64.node_attr (Binary64.graph after) = Binary64.node_attr (Binary64.graph self) ∧
    Binary64.servers after = Binary64.servers self ∧
    Binary64.sw_to_ctrl after = Binary64.sw_to_ctrl self ∧
    Binary64.metric_fcns after = Binary64.metric_fcns self ∧
    (∀ k, Binary64.edge (Binary64.graph after) !! k =
          (λ ed, {| Binary64.capacity := Binary64.capacity ed;
                    Binary64.used :=
                      sub_times (crossings path k) a
                        (add_times (crossings path k) a (Binary64.used ed)) |})
            <$> Binary64.edge (Binary64.graph self) !! k) ∧
    ((∀ k ed, (0 < crossings path k)%nat →
              Binary64.edge (Binary64.graph self) !! k = Some ed →
              sub_times (crossings path k) a
                (add_times (crossings path k) a (Binary64.used ed)) = Binary64.used ed) →
     after = self ∧
     ∀ (A : Type) (metric : Binary64.DiGraph → A),
       metric (Binary64.graph after) = metric (Binary64.graph self)).
Proof.
  intros Hlen Hfit Hnone.
  assert (path ≠ []) as Hne by (intros ->; simpl in Hlen; lia).
  eexists. eexists. split; [by apply binary64_allocate_resources_accepted|].
  split.
  { apply (binary64_free_resources_single e path a).
    - binary64_fields. by rewrite Hnone, lookup_insert_eq.
    - intros k Hk. binary64_fields. rewrite lookup_map_used, fmap_is_Some.
      destruct (Hfit k Hk) as (ed & -> & _). by eexists. }
  binary64_fields. rewrite delete_insert_id by done.
  do 6 (split; [done|]). split.
  { intros k. rewrite !lookup_map_used.
    by destruct (Binary64.edge (Binary64.graph self) !! k). }
  intros Hexact.
  assert (map_used (λ k, sub_times (crossings path k) a)
            (map_used (λ k, add_times (crossings path k) a) (Binary64.graph self))
          = Binary64.graph self) as Hgraph.
  { apply binary64_DiGraph_eq; [done|]. apply map_eq. intros k.
    rewrite !lookup_map_used.
    destruct (Binary64.edge (Binary64.graph self) !! k) as [ed|] eqn:Hed; [|done].
    simpl. f_equal. destruct ed as [c u]. simpl. f_equal.
    destruct (decide (0 < crossings path k)%nat) as [Hpos|Hzero].
    - by apply (Hexact k _ Hpos Hed).
    - by replace (crossings path k) with 0%nat by lia. }
  split.
  - apply binary64_LinkBalancerSim_eq; binary64_fields; done.
  - intros A metric. by rewrite Hgraph.
Qed.

(** ** The timestep loop against its description *)

Section RunProperties.

Variable shortest_path : DiGraph → node → node → res (list node).
Variable global_i_bound : bool.

Lemma handle_demand_handle_req t demand self :
  handle_demand shortest_path global_i_bound t demand self =
  handle_req shortest_path global_i_bound t demand self.
Proof.
  destruct demand as [[sw size] duration]. unfold handle_demand, handle_req.
  destruct (decide (0 < duration)%Z); [|done].
  destruct (sw_to_ctrl self !! sw) as [ctrl|]; [|done].
  destruct (handle_request _ _ ctrl (graph self) sw size duration) as [[p|]|]; [|done..].
  by rewrite Z.add_comm.
Qed.

Lemma allocate_resources_metric_fcns path r whenfree self :
  metric_fcns (snd (allocate_resources path r whenfree self)) = metric_fcns self.
Proof.
  unfold allocate_resources. destruct path as [[|x p]|]; [done| |done].
  destruct (links_fit _ _ _) as [[|]|]; [|done..].
  by destruct (for_ _ _ _) as [[[]|] g'].
Qed.

Lemma free_resources_metric_fcns timestep self :
  metric_fcns (snd (free_resources timestep self)) = metric_fcns self.
Proof.
  unfold free_resources. destruct (active_flows self !! timestep); [|done].
  by destruct (for_ _ _ _) as [[[]|] g'].
Qed.

Lemma handle_req_metric_fcns i req self :
  metric_fcns (snd (handle_req shortest_path global_i_bound i req self)) =
  metric_fcns self.
Proof.
  destruct req as [[sw size] duration]. unfold handle_req.
  destruct (decide (0 < duration)%Z); [|done].
  destruct (sw_to_ctrl self !! sw) as [ctrl|]; [|done].
  destruct (handle_request _ _ ctrl (graph self) sw size duration); [|done].
  apply allocate_resources_metric_fcns.
Qed.

#[local] Instance fcn_name_inj : Inj (=) (=) fcn_name.
Proof. by intros [] []. Qed.

(** The loop that appends one measurement to each metric's list. *)
Lemma record_metrics_spec s fs (am : metrics_dict) :
  NoDup (fcn_name <$> fs) →
  (∀ f, f ∈ fs → is_Some (am !! fcn_name f)) →
  match map_res (λ fcn, call_metric fcn s (graph s)) fs with
  | Ok row =>
      ∃ am', for_ fs (record_metric s) am = (Ok tt, am') ∧
             length row = length fs ∧
             (∀ name, is_Some (am' !! name) ↔ is_Some (am !! name)) ∧
             (∀ name, name ∉ fcn_name <$> fs → am' !! name = am !! name) ∧
             (∀ j f, fs !! j = Some f →
                     ∃ v, row !! j = Some v ∧
                          am' !! fcn_name f = (λ l, l ++ [v]) <$> am !! fcn_name f)
  | Raise e => ∃ am', for_ fs (record_metric s) am = (Raise e, am')
  end.
Proof.
  revert am; induction fs as [|f fs IH]; intros am Hnd Hin.
  { simpl. exists am. split; [done|]. split; [done|]. split; [done|]. split; [done|].
    intros j f. by rewrite lookup_nil. }
  rewrite fmap_cons in Hnd. pose proof (NoDup_cons_1_1 _ _ Hnd) as Hf.
  apply NoDup_cons_1_2 in Hnd.
  cbn [map_res for_]. unfold M_bind.
  destruct (Hin f) as [values Hvalues]; [left|].
  destruct (call_metric f s (graph s)) as [v|e] eqn:Hcall; cbn [res_bind].
  2:{ assert (record_metric s f am = (Raise e, am)) as ->
        by (unfold record_metric; by rewrite Hvalues, Hcall).
      by exists am. }
  set (am1 := <[fcn_name f := values ++ [v]]> am).
  assert (record_metric s f am = (Ok tt, am1)) as ->
    by (unfold record_metric; by rewrite Hvalues, Hcall).
  assert (∀ f', f' ∈ fs → is_Some (am1 !! fcn_name f')) as Hin1.
  { intros f' Hf'. unfold am1. rewrite lookup_insert_is_Some'. right. apply Hin. by right. }
  specialize (IH am1 Hnd Hin1).
  destruct (map_res _ fs) as [row|e]; [|done]. cbn [res_bind].
  destruct IH as (am' & -> & Hlen & Hdom & Hother & Hcols).
  exists am'. split; [done|]. split; [simpl; by rewrite Hlen|]. split; [|split].
  - intros name. rewrite Hdom. unfold am1. rewrite lookup_insert_is_Some'.
    split; [intros [<-|?]; [by eexists|done]|by right].
  - intros name Hname. rewrite fmap_cons, not_elem_of_cons in Hname.
    destruct Hname as [Hne Hname]. rewrite Hother by done.
    unfold am1. by rewrite lookup_insert_ne.
  - intros [|j] f' Hj; simpl in Hj.
    + injection Hj as <-. exists v. split; [done|].
      rewrite Hother by done. unfold am1. by rewrite lookup_insert_eq, Hvalues.
    + destruct (Hcols j f' Hj) as (v' & Hv' & Ham'). exists v'. split; [done|].
      rewrite Ham'. unfold am1. rewrite lookup_insert_ne; [done|].
      intros Heq. apply Hf. rewrite Heq. apply list_elem_of_fmap_2.
      by eapply list_elem_of_lookup_2.
Qed.

Lemma column_nil j : column j [] = [].
Proof. done. Qed.

Lemma column_cons j row rows v :
  row !! j = Some v → column j (row :: rows) = v :: column j rows.
Proof. intros Hv. unfold column. simpl. by rewrite Hv. Qed.

Lemma column_length j rows n :
  (j < n)%nat → Forall (λ row, length row = n) rows →
  length (column j rows) = length rows.
Proof.
  intros Hj. induction 1 as [|row rows Hrow _ IH]; [done|].
  destruct (lookup_lt_is_Some_2 row j) as [v Hv]; [lia|].
  rewrite (column_cons _ _ _ v Hv). simpl. by rewrite IH.
Qed.

Lemma timestep_unfold i reqs self (am : metrics_dict) :
  timestep shortest_path global_i_bound (i, reqs) (self, am) =
  match free_resources i self with
  | (Raise e, self1) => (Raise e, (self1, am))
  | (Ok _, self1) =>
      match for_ reqs (handle_req shortest_path global_i_bound i) self1 with
      | (Raise e, self2) => (Raise e, (self2, am))
      | (Ok _, self2) =>
          match for_ (metric_fcns self2) (record_metric self2) am with
          | (r, am') => (r, (self2, am'))
          end
      end
  end.
Proof. done. Qed.

(** The loop over the timesteps, started at any timestep and with any
    content of the metrics dict. *)
Lemma timesteps_spec workload t self (am : metrics_dict) :
  NoDup (fcn_name <$> metric_fcns self) →
  (∀ f, f ∈ metric_fcns self → is_Some (am !! fcn_name f)) →
  match run_from shortest_path global_i_bound t workload self with
  | (Ok rows, self') =>
      ∃ am',
        for_ (imap (λ i reqs, ((t + Z.of_nat i)%Z, reqs)) workload)
             (timestep shortest_path global_i_bound) (self, am) =
        (Ok tt, (self', am')) ∧
        length rows = length workload ∧
        Forall (λ row, length row = length (metric_fcns self)) rows ∧
        (∀ name, is_Some (am' !! name) ↔ is_Some (am !! name)) ∧
        (∀ j f, metric_fcns self !! j = Some f →
                am' !! fcn_name f = (λ l, l ++ column j rows) <$> am !! fcn_name f)
  | (Raise e, self') =>
      ∃ am',
        for_ (imap (λ i reqs, ((t + Z.of_nat i)%Z, reqs)) workload)
             (timestep shortest_path global_i_bound) (self, am) =
        (Raise e, (self', am'))
  end.
Proof.
  revert t self am; induction workload as [|demands rest IH]; intros t self am Hnd Hin.
  { simpl. exists am. split; [done|]. split; [done|]. split; [done|]. split; [done|].
    intros j f _. destruct (am !! fcn_name f); simpl; [|done].
    by rewrite app_nil_r. }
  rewrite imap_cons. cbn [run_from for_]. unfold M_bind.
  rewrite Z.add_0_r, timestep_unfold.
  pose proof (free_resources_metric_fcns t self) as Hm1.
  destruct (free_resources t self) as [[[]|e] self1]; simpl in Hm1; [|by exists am].
  rewrite (for_ext demands (handle_demand shortest_path global_i_bound t)
             (handle_req shortest_path global_i_bound t)) by apply handle_demand_handle_req.
  assert (metric_fcns (snd (for_ demands (handle_req shortest_path global_i_bound t) self1))
          = metric_fcns self) as Hm2.
  { apply (for_preserves (λ s, metric_fcns s = metric_fcns self)); [|done].
    intros req s _ Hs. by rewrite handle_req_metric_fcns. }
  destruct (for_ demands _ self1) as [[[]|e] self2]; simpl in Hm2; [|by exists am].
  unfold measure. rewrite Hm2.
  pose proof (record_metrics_spec self2 (metric_fcns self) am Hnd Hin) as Hrec.
  destruct (map_res _ (metric_fcns self)) as [row|e].
  2:{ destruct Hrec as [am' ->]. by exists am'. }
  destruct Hrec as (am1 & -> & Hlen & Hdom1 & _ & Hcols1).
  rewrite <- Hm2 in Hnd.
  assert (∀ f, f ∈ metric_fcns self2 → is_Some (am1 !! fcn_name f)) as Hin1.
  { intros f Hf. rewrite Hdom1. apply Hin. by rewrite <- Hm2. }
  specialize (IH (t + 1)%Z self2 am1 Hnd Hin1).
  rewrite (imap_ext _ ((λ i reqs, ((t + Z.of_nat i)%Z, reqs)) ∘ S) rest) in IH.
  2:{ intros i reqs _. simpl. f_equal. lia. }
  destruct (run_from _ _ (t + 1)%Z rest self2) as [[rows|e] self'].
  2:{ destruct IH as [am' ->]. by exists am'. }
  destruct IH as (am' & -> & Hlen' & Hrows & Hdom' & Hcols').
  exists am'. split; [done|]. split; [simpl; by rewrite Hlen'|].
  split; [constructor; [done|by rewrite <- Hm2]|].
  split; [intros name; by rewrite Hdom', Hdom1|].
  intros j f Hj. rewrite Hm2 in Hcols'. rewrite (Hcols' j f Hj).
  destruct (Hcols1 j f Hj) as (v & Hv & ->).
  rewrite (column_cons _ _ _ v Hv).
  destruct (am !! fcn_name f); simpl; [|done]. by rewrite <- app_assoc.
Qed.

(** The dict with an empty list for every registered metric. *)
Lemma initial_metrics_lookup fcns (m : metrics_dict) name :
  foldl (λ m fcn, <[fcn_name fcn := []]> m) m fcns !! name =
  if decide (name ∈ fcn_name <$> fcns) then Some [] else m !! name.
Proof.
  revert m; induction fcns as [|f fcns IH]; intros m; cbn [foldl].
  - destruct (decide (name ∈ fcn_name <$> [])) as [Hin|]; [|done].
    by apply elem_of_nil in Hin.
  - rewrite IH, fmap_cons.
    destruct (decide (name ∈ fcn_name <$> fcns)) as [Hin|Hnin].
    + rewrite decide_True; [done|]. by right.
    + destruct (decide (name = fcn_name f)) as [->|Hne].
      * rewrite decide_True by left. apply lookup_insert_eq.
      * rewrite decide_False by (by rewrite not_elem_of_cons).
        by rewrite lookup_insert_ne.
Qed.

(** [C6] With the registered metrics pairwise distinct, [run] does what
    [run_from 0] describes: for [t = 0, 1, ...] in order it frees timestep
    [t], then admits the demands of the timestep in list order, each
    allocated with expiry [t + duration] before the next is handled, then
    measures.  It raises when the description raises, and leaves the same
    simulation object behind; otherwise the dict it returns has exactly the
    names of the registered metrics as keys, and the list of the [j]-th
    metric is the [j]-th measurement of every timestep in order, one value
    for each timestep. *)
Theorem run_follows_description workload self :
  NoDup (metric_fcns self) →
  match run_from shortest_path global_i_bound 0 workload self with
  | (Ok rows, self') =>
      ∃ all_metrics,
        run shortest_path global_i_bound workload self = (Ok all_metrics, self') ∧
        length rows = length workload ∧
        (∀ name, is_Some (all_metrics !! name) ↔
                 ∃ fcn, fcn ∈ metric_fcns self ∧ name = fcn_name fcn) ∧
        (∀ j fcn, metric_fcns self !! j = Some fcn →
                  all_metrics !! fcn_name fcn = Some (column j rows) ∧
                  length (column j rows) = length workload)
  | (Raise e, self') =>
      run shortest_path global_i_bound workload self = (Raise e, self')
  end.
Proof.
  intros Hnd. unfold run, enumerate.
  set (am0 := foldl (λ m fcn, <[fcn_name fcn := []]> m) ∅ (metric_fcns self)).
  assert (∀ f, f ∈ metric_fcns self → am0 !! fcn_name f = Some []) as Ham0.
  { intros f Hf. unfold am0. rewrite initial_metrics_lookup, decide_True; [done|].
    by apply list_elem_of_fmap_2. }
  pose proof (timesteps_spec workload 0 self am0
                (NoDup_fmap_2 _ _ Hnd)
                (λ f Hf, ltac:(rewrite (Ham0 f Hf); by eexists))) as Hspec.
  rewrite (imap_ext _ (λ i reqs, (Z.of_nat i, reqs)) workload) in Hspec
    by (intros; f_equal; lia).
  destruct (run_from _ _ 0 workload self) as [[rows|e] self'].
  2:{ by destruct Hspec as [am' ->]. }
  destruct Hspec as (am' & -> & Hlen & Hrows & Hdom & Hcols).
  exists am'. split; [done|]. split; [done|]. split.
  - intros name. rewrite Hdom. unfold am0. rewrite initial_metrics_lookup.
    destruct (decide (name ∈ fcn_name <$> metric_fcns self)) as [Hin|Hnin].
    + split; [|by eexists]. intros _. apply list_elem_of_fmap in Hin as (f & -> & Hf).
      by exists f.
    + rewrite lookup_empty. split; [by intros [? ?]|].
      intros (f & Hf & ->). destruct Hnin. by apply list_elem_of_fmap_2.
  - intros j f Hj. split.
    + rewrite (Hcols j f Hj), Ham0 by (by eapply list_elem_of_lookup_2). done.
    + rewrite <- Hlen. eapply column_length; [|done]. by eapply lookup_lt_Some.
Qed.

End RunProperties.

(** ** Path selection on links without a score *)

(** What [next] does when the module has a global [i] (one that
    [from workload import *] would have to bring in): nothing.  A request of
    one unit at [sw2] has the single candidate [s1, sw1, sw2]; both its links
    are considered and the first would be oversubscribed.  With [i] bound the
    link is merely left out of the path's metrics and the path is returned;
    with [i] unbound, as in the module itself, reporting the link raises
    [NameError]. *)
Example handle_request_with_global_i :
  two_switch_paths s1_link_full "s1" "sw2" = Ok ["s1"; "sw1"; "sw2"] ∧
  "sw1" ∈ switches both_switches_ctrl ∧
  edge s1_link_full !! ("s1", "sw1") = Some (mk_edge 100 100) ∧
  1 < (Qc_of_Z 100 + 1) / Qc_of_Z 100 ∧
  handle_request two_switch_paths true both_switches_ctrl s1_link_full "sw2" 1 1 =
    Ok (Some ["s1"; "sw1"; "sw2"]) ∧
  handle_request two_switch_paths false both_switches_ctrl s1_link_full "sw2" 1 1 =
    Raise NameError.
Proof. by_compute. Qed.

(** [C7] A path without considered links should be passed over without
    error and the call should return no path when no candidate qualifies;
    here it raises.  Asked for a path to [sw2], the
    controller of [sw1] has the candidate [s2, sw2], none of whose links it
    considers: [max] of the empty list raises [ValueError].  Asked at [sw1]
    for 2000 units, more than any link can carry, the first candidate has no
    link left to score: the call raises [ValueError], or [NameError] when the
    module has no global [i].  With no server to route to, the call returns
    no path. *)
Theorem handle_request_raises_on_unscored_path :
  (∀ global_i_bound,
     handle_request two_switch_paths global_i_bound sw1_ctrl_s2 two_switch_topo
       "sw2" 1 1 = Raise ValueError) ∧
  handle_request two_switch_paths true sw1_ctrl two_switch_topo
    "sw1" (Qc_of_Z 2000) 1 = Raise ValueError ∧
  handle_request two_switch_paths false sw1_ctrl two_switch_topo
    "sw1" (Qc_of_Z 2000) 1 = Raise NameError ∧
  (∀ shortest_path global_i_bound self sim_graph sw util duration,
     ctrl_servers self = [] →
     handle_request shortest_path global_i_bound self sim_graph sw util duration
     = Ok None).
Proof.
  split; [intros []; by_compute|]. split; [by_compute|]. split; [by_compute|].
  intros sp gi self g sw util duration Hnone. unfold handle_request. by rewrite Hnone.
Qed.

(** ** Instances *)

Lemma two_switch_paths_simple : simple_paths two_switch_paths.
Proof.
  intros g source target p. unfold two_switch_paths.
  repeat case_decide; intros [= <-]; by_compute.
Qed.

Lemma single_step_nonneg : nonneg_sizes single_step_workload.
Proof.
  intros reqs sw size duration Hreqs. apply list_elem_of_singleton in Hreqs as ->.
  rewrite !elem_of_cons, elem_of_nil.
  intros [[= -> -> ->]|[[= -> -> ->]|[]]]; by_compute.
Qed.

Lemma s1_sw1_fits (a : Z) k :
  (a ≤ 100)%Z → k ∈ links ["s1"; "sw1"] →
  ∃ ed, edge (graph (two_ctrl_sim two_switch_topo)) !! k = Some ed ∧
        used ed + Qc_of_Z a ≤ capacity ed.
Proof.
  intros Ha Hk. apply list_elem_of_singleton in Hk as ->.
  exists (mk_edge 100 0). split; [by_compute|]. simpl.
  unfold Qcle, Qcplus, Q2Qc; cbn [this]. rewrite Qred_correct.
  unfold Qle, Qplus; simpl. lia.
Qed.

Lemma run_follows_description_witness :
  NoDup (metric_fcns (two_ctrl_sim two_switch_topo)) ∧
  match run_from two_switch_paths false 0 single_step_workload
          (two_ctrl_sim two_switch_topo) with
  | (Ok rows, self') =>
      ∃ all_metrics,
        run two_switch_paths false single_step_workload
          (two_ctrl_sim two_switch_topo) = (Ok all_metrics, self') ∧
        length rows = length single_step_workload ∧
        (∀ name, is_Some (all_metrics !! name) ↔
                 ∃ fcn, fcn ∈ metric_fcns (two_ctrl_sim two_switch_topo) ∧
                        name = fcn_name fcn) ∧
        (∀ j fcn, metric_fcns (two_ctrl_sim two_switch_topo) !! j = Some fcn →
                  all_metrics !! fcn_name fcn = Some (column j rows) ∧
                  length (column j rows) = length single_step_workload)
  | (Raise e, self') =>
      run two_switch_paths false single_step_workload
        (two_ctrl_sim two_switch_topo) = (Raise e, self')
  end.
Proof.
  assert (NoDup (metric_fcns (two_ctrl_sim two_switch_topo))) as Hnd by by_compute.
  split; [exact Hnd|].
  exact (run_follows_description two_switch_paths false single_step_workload
           (two_ctrl_sim two_switch_topo) Hnd).
Defined.

(** ** Instances over binary64 floats *)

Ltac by_evaluation := vm_compute; reflexivity.

Lemma binary64_link_crossed c u k :
  (0 < crossings ["s1"; "sw1"] k)%nat →
  k = ("s1", "sw1") ∧
  Binary64.edge (Binary64.graph (binary64_link c u)) !! k =
  Some {| Binary64.capacity := c; Binary64.used := u |}.
Proof.
  simpl. destruct (decide (("s1", "sw1") = k)) as [<-|]; [|lia].
  intros _. split; [done|]. apply lookup_singleton_eq.
Qed.

Lemma allocate_resources_atomic_witness :
  (Binary64.allocate_resources (Some ["s1"; "sw1"]) 200 5 (binary64_link 100 0)
   = (Ok tt, binary64_link 100 0) ∧
   Binary64.free_resources 5
     (snd (Binary64.allocate_resources (Some ["s1"; "sw1"]) 200 5 (binary64_link 100 0)))
   = (Ok tt, binary64_link 100 0)) ∧
  ∃ self',
    Binary64.allocate_resources (Some ["s1"; "sw1"]) 40 5 (binary64_link 100 0)
    = (Ok tt, self') ∧
    Binary64.edge (Binary64.graph self') !! ("s1", "sw1") =
      Some {| Binary64.capacity := 100; Binary64.used := 40 |} ∧
    Binary64.active_flows self' = {[ 5%Z := [(["s1"; "sw1"], 40%float)] ]}.
Proof.
  assert (∀ k, (0 < crossings ["s1"; "sw1"] k)%nat →
               is_Some (Binary64.edge (Binary64.graph (binary64_link 100 0)) !! k))
    as Hex.
  { intros k Hk. destruct (binary64_link_crossed 100 0 k Hk) as [_ ->]. by eexists. }
  split.
  - destruct (allocate_resources_atomic ["s1"; "sw1"] 200 5 (binary64_link 100 0) Hex)
      as (_ & _ & Hrejected & _).
    destruct Hrejected as [Hsame Hfree].
    + exists ("s1", "sw1"), {| Binary64.capacity := 100; Binary64.used := 0 |}.
      split; [simpl; lia|]. split; by_evaluation.
    + split; [exact Hsame|]. apply Hfree. reflexivity.
  - destruct (allocate_resources_atomic ["s1"; "sw1"] 40 5 (binary64_link 100 0) Hex)
      as (_ & _ & _ & Haccepted).
    destruct Haccepted as (self' & Halloc & Hedges & _ & Hflows & _).
    + done.
    + intros k e Hk. destruct (binary64_link_crossed 100 0 k Hk) as [_ ->].
      intros [= <-]. by_evaluation.
    + exists self'. split; [exact Halloc|]. split.
      * rewrite Hedges. by_evaluation.
      * rewrite Hflows. by_evaluation.
Defined.

Lemma allocate_then_free_round_trip_witness :
  (2 ≤ length ["s1"; "sw1"])%nat ∧
  Binary64.active_flows (binary64_link 100 10) !! 5%Z = None ∧
  ∃ mid,
    Binary64.allocate_resources (Some ["s1"; "sw1"]) 40 5 (binary64_link 100 10)
    = (Ok tt, mid) ∧
    Binary64.free_resources 5 mid = (Ok tt, binary64_link 100 10).
Proof.
  split; [simpl; lia|]. split; [reflexivity|].
  destruct (allocate_then_free_round_trip ["s1"; "sw1"] 40 5 (binary64_link 100 10))
    as (mid & after & Halloc & Hfree & _ & _ & _ & _ & _ & _ & _ & Hexact).
  - simpl; lia.
  - intros k Hk. destruct (binary64_link_crossed 100 10 k Hk) as [_ ->].
    eexists. split; [reflexivity|by_evaluation].
  - reflexivity.
  - exists mid. split; [exact Halloc|]. rewrite Hfree.
    destruct Hexact as [-> _]; [|reflexivity].
    intros k ed Hk. destruct (binary64_link_crossed 100 10 k Hk) as [-> ->].
    intros [= <-]. by_evaluation.
Defined.

(** An amount that the float sum absorbs passes the room check: half a unit
    on a link that carries [1e16] of its capacity [1e16] is recorded as a
    flow and leaves [used] where it was. *)
Example allocate_resources_absorbed_amount :
  (0 <? 0x1p-1)%float = true ∧
  Binary64.allocate_resources (Some ["s1"; "sw1"]) 0x1p-1 5 (binary64_link 1e16 1e16) =
  (Ok tt,
   Binary64.with_active_flows (binary64_link 1e16 1e16)
     {[ 5%Z := [(["s1"; "sw1"], 0x1p-1%float)] ]}).
Proof. split; by_evaluation. Qed.

(** ** Where the bounds, the round trip and the free-time check fail *)

(** The ledger after each timestep of [fractional_workload] on a single
    link: both requests are admitted over [s1, sw1] at timestep 0, the first
    is freed at timestep 1 and the second at timestep 2. *)
Example run_fractional_workload :
  snd (run two_switch_paths false (take 1 fractional_workload) single_link_sim) =
    with_active_flows
      (with_graph single_link_sim
         (set_used ("s1", "sw1") (Q2Qc (7 # 10)) single_link_topo))
      {[ 1%Z := [(["s1"; "sw1"], Q2Qc (1 # 5))];
         2%Z := [(["s1"; "sw1"], Q2Qc (1 # 2))] ]} ∧
  snd (run two_switch_paths false (take 2 fractional_workload) single_link_sim) =
    with_active_flows
      (with_graph single_link_sim
         (set_used ("s1", "sw1") (Q2Qc (1 # 2)) single_link_topo))
      {[ 2%Z := [(["s1"; "sw1"], Q2Qc (1 # 2))] ]} ∧
  snd (run two_switch_paths false fractional_workload single_link_sim) =
    single_link_sim.
Proof. split; [by_compute|]. split; by_compute. Qed.

(** Over floats the lower bound is lost: the ledger calls of that run,
    [fractional_calls], made with binary64 values on an unused link of
    capacity 100, allocate 0.2 and 0.5 units, free them at their expiries
    and leave the link at [-2^-54], below zero, with an empty ledger. *)
#[warnings="-inexact-float"]
Lemma run_preserves_capacity_bounds_counterexample :
  Binary64.edge (Binary64.graph (binary64_link 100 0)) !! ("s1", "sw1") =
    Some {| Binary64.capacity := 100; Binary64.used := 0 |} ∧
  Binary64.active_flows (binary64_link 100 0) = ∅ ∧
  (0 <=? 0)%float = true ∧ (0 <=? 100)%float = true ∧
  (0 <=? 0.2)%float = true ∧ (0 <=? 0.5)%float = true ∧
  ∃ after,
    for_ fractional_calls Binary64.do_call (binary64_link 100 0) = (Ok tt, after) ∧
    Binary64.active_flows after = ∅ ∧
    Binary64.edge (Binary64.graph after) !! ("s1", "sw1") =
      Some {| Binary64.capacity := 100; Binary64.used := -0x1p-54 |} ∧
    (-0x1p-54 <? 0)%float = true.
Proof.
  do 6 (split; [by_evaluation|]). eexists. split; [by_evaluation|].
  split; [by_evaluation|]. split; by_evaluation.
Qed.

Lemma rmse_links_value self graph_arg q :
  edge_pairs (graph_or_self self graph_arg) ≠ [] →
  Qc_sum (edge_pairs (graph_or_self self graph_arg)).*1 ≠ 0 →
  Qc_sum (sq_deviations (edge_pairs (graph_or_self self graph_arg))) = q →
  rmse_links self graph_arg = Ok (sqrt (Q2R q)).
Proof.
  intros Hne Hct <-. rewrite rmse_links_pairs. unfold ideal_split_rmse.
  destruct (edge_pairs _); [done|]. by rewrite decide_False.
Qed.

(** On a single edge 40 units fit, yet [rmse_links] is the same before and
    between the two calls; with a bucket already recorded for the expiry,
    allocate-then-free leaves the edge at 0 where it was at 10; and over
    floats 0.2 units allocated on a link that carries 0.1 of its capacity 1
    and then freed leave it at 0.10000000000000003. *)
#[warnings="-inexact-float"]
Lemma allocate_then_free_counterexample :
  (links ["s1"; "sw1"] = [("s1", "sw1")] ∧
   edge (graph single_link_sim) !! ("s1", "sw1") = Some (mk_edge 100 0) ∧
   Qc_of_Z 0 + Qc_of_Z 40 ≤ Qc_of_Z 100 ∧ Qc_of_Z 40 ≠ 0 ∧
   rmse_links (snd (allocate_resources (Some ["s1"; "sw1"]) (Qc_of_Z 40) 5
                      single_link_sim)) None =
   rmse_links single_link_sim None) ∧
  (edge (graph one_flow_sim) !! ("s1", "sw1") = Some (mk_edge 100 10) ∧
   Qc_of_Z 10 + Qc_of_Z 20 ≤ Qc_of_Z 100 ∧
   edge (graph (snd (free_resources 5
                       (snd (allocate_resources (Some ["s1"; "sw1"]) (Qc_of_Z 20) 5
                               one_flow_sim))))) !! ("s1", "sw1") =
   Some (mk_edge 100 0)) ∧
  (Binary64.edge (Binary64.graph (binary64_link 1 0.1)) !! ("s1", "sw1") =
     Some {| Binary64.capacity := 1; Binary64.used := 0.1 |} ∧
   Binary64.active_flows (binary64_link 1 0.1) !! 5%Z = None ∧
   (1 <? 0.1 + 0.2)%float = false ∧ (0.1 + 0.2 <=? 1)%float = true ∧
   Binary64.edge
     (Binary64.graph
        (snd (Binary64.free_resources 5
                (snd (Binary64.allocate_resources (Some ["s1"; "sw1"]) 0.2 5
                        (binary64_link 1 0.1)))))) !! ("s1", "sw1") =
     Some {| Binary64.capacity := 1; Binary64.used := 0.10000000000000003 |} ∧
   (0.10000000000000003 =? 0.1)%float = false).
Proof.
  split; [|split; [by_compute|repeat split; by_evaluation]].
  split; [by_compute|]. split; [by_compute|]. split; [by_compute|]. split; [by_compute|].
  rewrite (rmse_links_value _ None 0), (rmse_links_value single_link_sim None 0);
    [done|by_compute..].
Qed.

(** Freeing the bucket of [overdrawn_sim] ends normally and leaves the edge
    at -40. *)
Lemma free_resources_counterexample :
  active_flows overdrawn_sim !! 5%Z = Some [(["s1"; "sw1"], Qc_of_Z 40)] ∧
  edge (graph overdrawn_sim) !! ("s1", "sw1") = Some (mk_edge 100 0) ∧
  fst (free_resources 5 overdrawn_sim) = Ok tt ∧
  edge (graph (snd (free_resources 5 overdrawn_sim))) !! ("s1", "sw1") =
  Some (mk_edge 100 (-40)).
Proof. by_compute. Qed.

Lemma free_resources_unchecked_witness :
  active_flows overdrawn_sim !! 5%Z = Some [(["s1"; "sw1"], Qc_of_Z 40)] ∧
  ∃ self', free_resources 5 overdrawn_sim = (Ok tt, self') ∧
           active_flows self' = delete 5%Z (active_flows overdrawn_sim).
Proof.
  split; [reflexivity|].
  destruct (proj2 (free_resources_unchecked 5 overdrawn_sim)
              [(["s1"; "sw1"], Qc_of_Z 40)]) as (self' & Hfree & _ & Haf).
  - reflexivity.
  - intros f k Hf Hk. apply list_elem_of_singleton in Hf as ->.
    destruct (s1_sw1_fits 0 k) as (ed & Hed & _); [lia|exact Hk|].
    simpl in Hed |- *. rewrite Hed. by eexists.
  - exists self'. split; [exact Hfree | exact Haf].
Defined.

Lemma two_neighbor_topo_s1 :
  ∃ s ns, s ∈ servers (two_ctrl_sim two_neighbor_topo) ∧
          neighbors (graph_or_self (two_ctrl_sim two_neighbor_topo) None) s = Ok ns ∧
          length ns ≠ 1%nat.
Proof.
  exists "s1", ["sw1"; "sw2"]. split; [by_compute|]. split; [by_compute|]. by_compute.
Qed.

Lemma two_switch_topo_single_neighbor s :
  s ∈ servers (two_ctrl_sim two_switch_topo) →
  ∃ dst, neighbors (graph_or_self (two_ctrl_sim two_switch_topo) None) s = Ok [dst].
Proof.
  intros Hs. apply elem_of_cons in Hs as [->|Hs]; [exists "sw1"; by_compute|].
  apply list_elem_of_singleton in Hs as ->. exists "sw2"; by_compute.
Qed.

Lemma rmse_servers_correct_witness :
  (∃ e, rmse_servers (two_ctrl_sim two_neighbor_topo) None = Raise e ∧
        ((∀ s, s ∈ servers (two_ctrl_sim two_neighbor_topo) →
               is_Some (node_attr (graph_or_self (two_ctrl_sim two_neighbor_topo) None)
                          !! s)) →
         e = NotImplementedError)) ∧
  NoDup (servers (two_ctrl_sim two_switch_topo)) ∧
  rmse_servers (two_ctrl_sim two_switch_topo) None =
  rmse_links
    (with_graph (two_ctrl_sim two_switch_topo)
       (server_links (servers (two_ctrl_sim two_switch_topo))
          (graph_or_self (two_ctrl_sim two_switch_topo) None))) None.
Proof.
  assert (NoDup (servers (two_ctrl_sim two_switch_topo))) as Hnd by by_compute.
  split; [|split; [exact Hnd|]].
  - exact (proj1 (rmse_servers_correct (two_ctrl_sim two_neighbor_topo) None)
             two_neighbor_topo_s1).
  - exact (proj2 (rmse_servers_correct (two_ctrl_sim two_switch_topo) None)
             Hnd two_switch_topo_single_neighbor).
Defined.

(** The single-step run of [test_two_ctrl_single_step] ends normally, with
    both requests admitted and due to be freed at timestep 2. *)
Example run_single_step :
  ∃ all_metrics self',
    run two_switch_paths false single_step_workload (two_ctrl_sim two_switch_topo)
    = (Ok all_metrics, self') ∧
    active_flows self' !! 2%Z =
    Some [(["s2"; "sw2"; "sw1"], 1); (["s1"; "sw1"; "sw2"], 1)].
Proof. do 2 eexists. split; [vm_compute; reflexivity|by_compute]. Qed.

(** ** The constructor *)

Lemma elem_of_server_nodes (l : list (node * option node_type)) s :
  s ∈ omap (λ '(node, type), if decide (type = Some server) then Some node else None) l
  ↔ (s, Some server) ∈ l.
Proof.
  rewrite list_elem_of_omap. split.
  - intros ([k v] & Hin & Hsel). destruct (decide (v = Some server)) as [->|]; [|done].
    by injection Hsel as ->.
  - intros Hin. exists (s, Some server). split; [done|]. by rewrite decide_True.
Qed.

Lemma NoDup_server_nodes (l : list (node * option node_type)) :
  NoDup l.*1 →
  NoDup (omap (λ '(node, type), if decide (type = Some server) then Some node else None) l).
Proof.
  induction l as [|[k v] l IH]; [constructor|].
  rewrite fmap_cons. intros Hnd. pose proof (NoDup_cons_1_1 _ _ Hnd) as Hk.
  apply NoDup_cons_1_2 in Hnd. cbn [omap list_omap].
  destruct (decide (v = Some server)); [|by apply IH].
  constructor; [|by apply IH]. rewrite elem_of_server_nodes. intros Hin.
  apply Hk. apply list_elem_of_fmap. by exists (k, Some server).
Qed.

(** The constructor starts with an empty ledger, and the servers it extracts
    are the nodes of type server, each once. *)
Lemma LinkBalancerSim_init_Ok g ctrls self :
  LinkBalancerSim_init g ctrls = Ok self →
  graph self = g ∧ active_flows self = ∅ ∧ NoDup (servers self) ∧
  ∀ s, s ∈ servers self ↔ node_attr g !! s = Some (Some server).
Proof.
  unfold LinkBalancerSim_init. destruct (map_ctrls ctrls ∅) as [m|]; [|done].
  simpl. intros [= <-]; simpl. split; [done|]. split; [done|]. split.
  - apply NoDup_server_nodes, NoDup_fst_map_to_list.
  - intros s. by rewrite elem_of_server_nodes, elem_of_map_to_list.
Qed.

(** The constructor on the two-switch topology with its two controllers. *)
Example LinkBalancerSim_init_two_ctrls :
  LinkBalancerSim_init two_switch_topo two_ctrls = Ok (two_ctrl_sim two_switch_topo) ∧
  LinkBalancerSim_init two_switch_topo (two_ctrls ++ two_ctrls) = Raise AssertionError.
Proof. by_compute. Qed.

(** * Further properties *)

(** ** The links of a path *)

(** [X1] The links of a path are its consecutive pairs of nodes, in order:
    there is one fewer than nodes (none for a path of fewer than two nodes),
    and the [i]-th link joins the [i]-th node to the next. *)
Theorem links_consecutive path :
  length (links path) = (length path - 1)%nat ∧
  ∀ i u v, links path !! i = Some (u, v) ↔
           path !! i = Some u ∧ path !! S i = Some v.
Proof.
  induction path as [|x [|y path] IH].
  - split; [done|]. intros i u v. by split; [|intros [? ?]].
  - split; [done|]. intros i u v. split; [done|].
    intros [_ Hv]. by destruct i.
  - destruct IH as [IHlen IHlook]. rewrite links_cons. split.
    + simpl in *. lia.
    + intros [|i] u v.
      * simpl. split; [by intros [= -> ->]|by intros [[= ->] [= ->]]].
      * apply (IHlook i u v).
Qed.

(** ** Exceptions of the ledger operations *)

Lemma links_fit_Raise g r ls e :
  links_fit g r ls = Raise e ↔
  e = KeyError ∧
  ∃ l1 k l2, ls = l1 ++ k :: l2 ∧ edge g !! k = None ∧
             ∀ j, j ∈ l1 → ∃ ed, edge g !! j = Some ed ∧ used ed + r ≤ capacity ed.
Proof.
  induction ls as [|[src dst] ls IH]; simpl.
  - split; [done|]. intros (_ & l1 & k & l2 & Hls & _). by destruct l1.
  - destruct (edge g !! (src, dst)) as [ed|] eqn:Hed.
    + destruct (decide (capacity ed < used ed + r)) as [Hlt|Hge].
      * split; [done|]. intros (_ & [|j l1] & k & l2 & Hls & Hk & Hl1).
        -- injection Hls as <- _. by rewrite Hed in Hk.
        -- injection Hls as <- _. destruct (Hl1 (src, dst)) as (ed' & Hed' & Hle); [left|].
           rewrite Hed in Hed'. injection Hed' as <-. by apply Qcle_not_lt in Hle.
      * rewrite IH. split.
        -- intros (-> & l1 & k & l2 & -> & Hk & Hl1). split; [done|].
           exists ((src, dst) :: l1), k, l2. split; [done|]. split; [done|].
           intros j. rewrite elem_of_cons. intros [->|Hj]; [|by apply Hl1].
           exists ed. split; [done|]. by apply Qcnot_lt_le.
        -- intros (-> & [|j l1] & k & l2 & Hls & Hk & Hl1).
           ++ injection Hls as <- _. by rewrite Hed in Hk.
           ++ injection Hls as _ ->. split; [done|]. exists l1, k, l2.
              split; [done|]. split; [done|]. intros j' Hj'. apply Hl1. by right.
    + split.
      * intros [= <-]. split; [done|]. exists [], (src, dst), ls.
        split; [done|]. split; [done|]. intros j. by rewrite elem_of_nil.
      * by intros (-> & _).
Qed.


Lemma sub_used_loop_Raise r ls g e g' :
  for_ ls (sub_used r) g = (Raise e, g') →
  e = KeyError ∧ ∃ k, k ∈ ls ∧ edge g !! k = None.
Proof.
  revert g; induction ls as [|l ls IH]; intros g; simpl; [done|].
  unfold M_bind, sub_used at 1.
  destruct (edge g !! l) as [ed|] eqn:Hed.
  - intros Hloop. destruct (IH _ Hloop) as (-> & k & Hk & Hnone).
    split; [done|]. exists k. split; [by right|].
    simpl in Hnone. destruct (decide (k = l)) as [->|Hne].
    + rewrite lookup_alter_eq, Hed in Hnone. done.
    + by rewrite lookup_alter_ne in Hnone.
  - intros [= <- <-]. split; [done|]. exists l. split; [left|done].
Qed.

Lemma edge_dom_shift_used f g k : edge (shift_used f g) !! k = None ↔ edge g !! k = None.
Proof. rewrite lookup_shift_used. by destruct (edge g !! k). Qed.

Lemma sub_used_loop_dom r ls g k :
  edge (snd (for_ ls (sub_used r) g)) !! k = None ↔ edge g !! k = None.
Proof.
  apply (for_preserves (λ g', edge g' !! k = None ↔ edge g !! k = None)); [|done].
  intros l g' _ Hg'. unfold sub_used. destruct (edge g' !! l) eqn:Hl; [|done].
  simpl. rewrite <- Hg'. destruct (decide (k = l)) as [->|Hne].
  - rewrite lookup_alter_eq, Hl. done.
  - by rewrite lookup_alter_ne.
Qed.

Lemma free_flow_loop_Raise flows g e g' :
  for_ flows free_flow g = (Raise e, g') →
  e = KeyError ∧ ∃ f k, f ∈ flows ∧ k ∈ links f.1 ∧ edge g !! k = None.
Proof.
  revert g; induction flows as [|[path r] flows IH]; intros g; simpl; [done|].
  unfold M_bind.
  pose proof (sub_used_loop_dom r (links path) g) as Hdom.
  destruct (for_ (links path) (sub_used r) g) as [[[]|e1] g1] eqn:Hloop.
  - intros Hrest. destruct (IH _ Hrest) as (-> & f & k & Hf & Hk & Hnone).
    split; [done|]. exists f, k. split; [by right|]. split; [done|].
    by apply Hdom.
  - intros [= <- <-]. destruct (sub_used_loop_Raise _ _ _ _ _ Hloop) as (-> & k & Hk & Hnone).
    split; [done|]. exists (path, r), k. split; [left|done].
Qed.

Lemma sub_used_loop_Ok r ls g g' k :
  for_ ls (sub_used r) g = (Ok tt, g') → k ∈ ls → is_Some (edge g !! k).
Proof.
  revert g; induction ls as [|l ls IH]; intros g; simpl.
  { intros _ Hk. by apply elem_of_nil in Hk. }
  unfold M_bind, sub_used at 1.
  destruct (edge g !! l) as [ed|] eqn:Hed; [|done].
  intros Hloop. rewrite elem_of_cons. intros [->|Hk]; [by eexists|].
  specialize (IH _ Hloop Hk). simpl in IH.
  destruct (decide (k = l)) as [->|Hne]; [by eexists|].
  by rewrite lookup_alter_ne in IH.
Qed.

Lemma free_flow_loop_Ok flows g g' f k :
  for_ flows free_flow g = (Ok tt, g') → f ∈ flows → k ∈ links f.1 →
  is_Some (edge g !! k).
Proof.
  revert g; induction flows as [|[path r] flows IH]; intros g; simpl.
  { intros _ Hf. by apply elem_of_nil in Hf. }
  unfold M_bind.
  pose proof (sub_used_loop_dom r (links path) g k) as Hdom.
  destruct (for_ (links path) (sub_used r) g) as [[[]|e1] g1] eqn:Hloop; [|done].
  intros Hrest. rewrite elem_of_cons. intros [->|Hf] Hk.
  - by eapply sub_used_loop_Ok.
  - specialize (IH _ Hrest Hf Hk). simpl in Hdom.
    destruct (edge g !! k) eqn:Hgk; [by eexists|].
    rewrite (proj2 Hdom eq_refl) in IH. by destruct IH.
Qed.

(** [X3] [free_resources] raises nothing but [KeyError], and exactly when a
    flow of the bucket crosses a link that is not an edge of the graph; the
    bucket then stays in the ledger, which is left as it was. *)
Theorem free_resources_raises timestep self e :
  fst (free_resources timestep self) = Raise e ↔
  e = KeyError ∧
  active_flows (snd (free_resources timestep self)) = active_flows self ∧
  ∃ flows f k, active_flows self !! timestep = Some flows ∧ f ∈ flows ∧
               k ∈ links f.1 ∧ edge (graph self) !! k = None.
Proof.
  unfold free_resources.
  destruct (active_flows self !! timestep) as [flows|] eqn:Hb.
  - destruct (for_ flows free_flow (graph self)) as [[[]|e'] g'] eqn:Hloop; simpl.
    + split; [done|]. intros (_ & _ & flows' & f & k & [= <-] & Hf & Hk & Hnone).
      destruct (free_flow_loop_Ok _ _ _ f k Hloop Hf Hk) as [ed Hed].
      by rewrite Hnone in Hed.
    + destruct (free_flow_loop_Raise _ _ _ _ Hloop) as (-> & f & k & Hf & Hk & Hnone).
      split; [intros [= <-]|by intros (-> & _)].
      split; [done|]. split; [done|]. by exists flows, f, k.
  - simpl. split; [done|]. by intros (_ & _ & flows & f & k & ? & _).
Qed.

(** [X4] Each bucket is freed once: after a [free_resources] that ended
    normally, freeing the same timestep again changes nothing. *)
Theorem free_resources_twice timestep self self' :
  free_resources timestep self = (Ok tt, self') →
  free_resources timestep self' = (Ok tt, self').
Proof.
  unfold free_resources at 1.
  destruct (active_flows self !! timestep) as [flows|] eqn:Hb.
  - destruct (for_ flows free_flow (graph self)) as [[[]|e'] g']; [|done].
    intros [= <-]. apply free_resources_no_bucket. simpl. apply lookup_delete_eq.
  - intros [= <-]. by apply free_resources_no_bucket.
Qed.

Lemma free_resources_twice_witness :
  free_resources 5 overdrawn_sim = (Ok tt, snd (free_resources 5 overdrawn_sim)) ∧
  free_resources 5 (snd (free_resources 5 overdrawn_sim)) =
  (Ok tt, snd (free_resources 5 overdrawn_sim)).
Proof.
  assert (free_resources 5 overdrawn_sim = (Ok tt, snd (free_resources 5 overdrawn_sim)))
    as H by by_compute.
  split; [exact H|].
  exact (free_resources_twice 5 overdrawn_sim (snd (free_resources 5 overdrawn_sim)) H).
Defined.

(** ** What the ledger operations never change *)

Lemma same_topology_refl g : same_topology g g.
Proof. by split. Qed.

Lemma same_topology_trans g1 g2 g3 :
  same_topology g1 g2 → same_topology g2 g3 → same_topology g1 g3.
Proof.
  intros [Hn1 He1] [Hn2 He2]. split; [by rewrite Hn2|].
  intros k. by rewrite He2.
Qed.

Lemma same_topology_set_used k x g : same_topology g (set_used k x g).
Proof.
  split; [done|]. intros j. simpl. destruct (decide (j = k)) as [->|Hne].
  - rewrite lookup_alter_eq. by destruct (edge g !! k).
  - by rewrite lookup_alter_ne.
Qed.

Lemma same_topology_shift_used f g : same_topology g (shift_used f g).
Proof.
  split; [done|]. intros k. rewrite lookup_shift_used. by destruct (edge g !! k).
Qed.

Lemma add_used_loop_topology r ls g :
  same_topology g (snd (for_ ls (add_used r) g)).
Proof.
  apply (for_preserves (same_topology g)); [|apply same_topology_refl].
  intros l g' _ Hg'. unfold add_used. destruct (edge g' !! l); [|done].
  eapply same_topology_trans; [done|apply same_topology_set_used].
Qed.

Lemma free_flow_loop_topology flows g :
  same_topology g (snd (for_ flows free_flow g)).
Proof.
  apply (for_preserves (same_topology g)); [|apply same_topology_refl].
  intros [path r] g' _ Hg'. eapply same_topology_trans; [done|].
  apply (for_preserves (same_topology g')); [|apply same_topology_refl].
  intros l g'' _ Hg''. unfold sub_used. destruct (edge g'' !! l); [|done].
  eapply same_topology_trans; [done|apply same_topology_set_used].
Qed.

Lemma same_structure_refl s : same_structure s s.
Proof. split; [apply same_topology_refl|done]. Qed.

Lemma same_structure_trans s1 s2 s3 :
  same_structure s1 s2 → same_structure s2 s3 → same_structure s1 s3.
Proof.
  intros (Ht1 & Hs1 & Hc1 & Hm1) (Ht2 & Hs2 & Hc2 & Hm2).
  split; [by eapply same_topology_trans|]. by rewrite Hs2, Hc2, Hm2.
Qed.

Lemma allocate_resources_structure path r whenfree self :
  same_structure self (snd (allocate_resources path r whenfree self)).
Proof.
  unfold allocate_resources. destruct path as [[|x path]|];
    [apply same_structure_refl| |apply same_structure_refl].
  destruct (links_fit _ _ _) as [[|]|]; [|apply same_structure_refl..].
  pose proof (add_used_loop_topology r (links (x :: path)) (graph self)) as Ht.
  by destruct (for_ _ _ _) as [[[]|] g'].
Qed.

Lemma free_resources_structure timestep self :
  same_structure self (snd (free_resources timestep self)).
Proof.
  unfold free_resources. destruct (active_flows self !! timestep) as [flows|];
    [|apply same_structure_refl].
  pose proof (free_flow_loop_topology flows (graph self)) as Ht.
  by destruct (for_ _ _ _) as [[[]|] g'].
Qed.

(** [X5] The ledger operations change nothing but [used] values and the
    ledger: after any sequence of calls, ended normally or by an exception,
    the graph has the same nodes, the same edges and the same capacities,
    and the servers, the controllers and the metrics are as before. *)
Theorem ledger_calls_keep_structure calls self :
  same_structure self (snd (for_ calls do_call self)).
Proof.
  apply (for_preserves (same_structure self)); [|apply same_structure_refl].
  intros [path r whenfree|timestep] s _ Hs; simpl;
    (eapply same_structure_trans; [done|]).
  - apply allocate_resources_structure.
  - apply free_resources_structure.
Qed.

(** ** Integer-valued amounts *)

Lemma whole_integer_valued x : whole x → integer_valued x.
Proof. intros (n & -> & _). by exists n. Qed.

Lemma integer_valued_plus x y :
  integer_valued x → integer_valued y → integer_valued (x + y).
Proof. intros [n ->] [m ->]. exists (n + m)%Z. by rewrite Z2Qc_inj_add. Qed.

Lemma integer_valued_minus x y :
  integer_valued x → integer_valued y → integer_valued (x - y).
Proof. intros [n ->] [m ->]. exists (n - m)%Z. by rewrite Z2Qc_inj_sub. Qed.

Lemma set_used_integral k x g :
  integer_valued x → integral_graph g → integral_graph (set_used k x g).
Proof.
  intros Hx Hg k' e'. unfold set_used; simpl.
  destruct (decide (k' = k)) as [->|Hne].
  - rewrite lookup_alter_eq. destruct (edge g !! k); [|done]. by intros [= <-].
  - rewrite lookup_alter_ne by done. apply Hg.
Qed.

Lemma add_used_integral d k g :
  integer_valued d → integral_graph g → integral_graph (snd (add_used d k g)).
Proof.
  intros Hd Hg. unfold add_used. destruct (edge g !! k) as [e|] eqn:He; [|done].
  simpl. apply set_used_integral; [|done].
  apply integer_valued_plus; [by eapply Hg|done].
Qed.

Lemma sub_used_integral d k g :
  integer_valued d → integral_graph g → integral_graph (snd (sub_used d k g)).
Proof.
  intros Hd Hg. unfold sub_used. destruct (edge g !! k) as [e|] eqn:He; [|done].
  simpl. apply set_used_integral; [|done].
  apply integer_valued_minus; [by eapply Hg|done].
Qed.

Lemma allocate_resources_integral path r whenfree self :
  integer_valued r → integral self →
  integral (snd (allocate_resources path r whenfree self)).
Proof.
  intros Hr [Hg Hfl]. unfold allocate_resources.
  destruct path as [[|x path]|]; [done| |done].
  destruct (links_fit _ _ _) as [[|]|]; [|done..].
  pose proof (for_preserves integral_graph (links (x :: path)) (add_used r)
                (graph self) (λ k g _, add_used_integral r k g Hr) Hg) as Hloop.
  destruct (for_ _ _ _) as [[[]|e] g']; simpl in *; [|done].
  split; [done|]. simpl. intros t flows f Ht Hf.
  destruct (decide (whenfree = t)) as [->|Hne].
  - rewrite lookup_insert_eq in Ht. injection Ht as <-.
    apply elem_of_app in Hf as [Hf|Hf].
    + destruct (active_flows self !! t) as [flows'|] eqn:Ht'; simpl in Hf.
      * by eapply Hfl.
      * by apply elem_of_nil in Hf.
    + by apply list_elem_of_singleton in Hf as ->.
  - rewrite lookup_insert_ne in Ht by done. by eapply Hfl.
Qed.

Lemma free_resources_integral timestep self :
  integral self → integral (snd (free_resources timestep self)).
Proof.
  intros [Hg Hfl]. unfold free_resources.
  destruct (active_flows self !! timestep) as [flows|] eqn:Ht; [|done].
  assert (integral_graph (snd (for_ flows free_flow (graph self)))) as Hloop.
  { apply for_preserves; [|done]. intros [path r] g Hin Hg'. simpl.
    apply for_preserves; [|done]. intros k g'' _. apply sub_used_integral.
    by apply (Hfl timestep flows (path, r)). }
  destruct (for_ flows free_flow (graph self)) as [[[]|e] g']; simpl in *; [|done].
  split; [done|]. simpl. intros t flows' f Ht' Hf.
  apply lookup_delete_Some in Ht' as [_ Ht']. by eapply Hfl.
Qed.

(** What the three invariants give together: the bounds, with every value
    an integer of magnitude at most 2^52. *)
Lemma whole_bounds self self' :
  (∀ k e, edge (graph self) !! k = Some e → whole (capacity e)) →
  same_structure self self' → ledger_consistent self' → integral self' →
  ∀ k e, edge (graph self') !! k = Some e →
         0 ≤ used e ∧ used e ≤ capacity e ∧ whole (used e) ∧ whole (capacity e).
Proof.
  intros Hstart [[_ Hcap] _] Hlc [Hint _] k e He.
  destruct (ledger_consistent_bounds _ _ _ Hlc He) as [H0 Hle].
  specialize (Hcap k). rewrite He in Hcap. simpl in Hcap.
  destruct (edge (graph self) !! k) as [e0|] eqn:He0; [|done].
  injection Hcap as Hcap. destruct (Hstart k e0 He0) as (m & Hm & Hbound).
  rewrite <- Hcap in Hm.
  split; [done|]. split; [done|]. split; [|by exists m].
  destruct (Hint k e He) as [n Hn]. exists n. split; [done|].
  rewrite Hn, Hm in Hle. rewrite Hn, <- Z2Qc_inj_0 in H0.
  apply Z2Qc_inj_le in Hle, H0. lia.
Qed.

(** ** Bounds under direct calls *)

(** [X7] Starting from an empty ledger and edges within [0 ≤ used ≤
    capacity], with every capacity, utilisation and allocated amount an
    integer of magnitude at most 2^52, any sequence of allocate and free
    calls whose allocations ask for a non-negative amount along a path that
    crosses no link twice keeps every edge within [0 ≤ used ≤ capacity], and
    every utilisation such an integer. *)
Theorem ledger_calls_keep_bounds calls self :
  (∀ path r whenfree, call_allocate (Some path) r whenfree ∈ calls →
                      0 ≤ r ∧ whole r ∧ NoDup (links path)) →
  active_flows self = ∅ →
  (∀ k e, edge (graph self) !! k = Some e →
          0 ≤ used e ∧ used e ≤ capacity e ∧ whole (used e) ∧ whole (capacity e)) →
  ∀ k e, edge (graph (snd (for_ calls do_call self))) !! k = Some e →
         0 ≤ used e ∧ used e ≤ capacity e ∧ whole (used e) ∧ whole (capacity e).
Proof.
  intros Hcalls Haf Hbounds. apply (whole_bounds self).
  - intros k e He. by destruct (Hbounds k e He) as (_ & _ & _ & ?).
  - apply (for_preserves (same_structure self)); [|apply same_structure_refl].
    intros [path r whenfree|timestep] s _ Hs; simpl;
      (eapply same_structure_trans; [done|]).
    + apply allocate_resources_structure.
    + apply free_resources_structure.
  - apply (for_preserves ledger_consistent).
    + intros [[path|] r whenfree|timestep] s Hin Hs; simpl; [|done|].
      * destruct (Hcalls path r whenfree Hin) as (? & _ & ?).
        by apply allocate_resources_consistent.
      * by apply free_resources_consistent.
    + apply ledger_consistent_start; [done|]. intros k e He.
      by destruct (Hbounds k e He) as (? & ? & _).
  - apply (for_preserves integral).
    + intros [[path|] r whenfree|timestep] s Hin Hs; cbn [do_call]; [|done|].
      * destruct (Hcalls path r whenfree Hin) as (_ & ? & _).
        apply allocate_resources_integral; [by apply whole_integer_valued|done].
      * by apply free_resources_integral.
    + split.
      * intros k e He. apply whole_integer_valued.
        by destruct (Hbounds k e He) as (_ & _ & ? & _).
      * intros t flows f. by rewrite Haf, lookup_empty.
Qed.

(** ** The timestep loop: what it keeps and what it rejects *)

Lemma for_raises {S A} (l : list A) (body : A → M S unit) x s :
  x ∈ l → (∀ s, ∃ e, fst (body x s) = Raise e) →
  ∃ e, fst (for_ l body s) = Raise e.
Proof.
  intros Hx Hraise. revert s; induction l as [|y l IH]; intros s.
  { by apply elem_of_nil in Hx. }
  simpl. unfold M_bind. destruct (body y s) as [[[]|e] s'] eqn:Hy; [|by exists e].
  apply elem_of_cons in Hx as [->|Hx]; [|by apply IH].
  destruct (Hraise s) as [e He]. by rewrite Hy in He.
Qed.

Lemma elem_of_enumerate_2 {A} (l : list A) x :
  x ∈ l → ∃ i, (i, x) ∈ enumerate l.
Proof.
  intros [n Hn]%list_elem_of_lookup. exists (Z.of_nat n). unfold enumerate.
  apply list_elem_of_lookup. exists n. by rewrite list_lookup_imap, Hn.
Qed.

Section FurtherRun.

Variable shortest_path : DiGraph → node → node → res (list node).
Variable global_i_bound : bool.

(** A property kept by both ledger operations is kept by a whole run. *)
Lemma run_preserves (P : LinkBalancerSim → Prop) workload self :
  (∀ path r whenfree s, P s → P (snd (allocate_resources path r whenfree s))) →
  (∀ timestep s, P s → P (snd (free_resources timestep s))) →
  P self → P (snd (run shortest_path global_i_bound workload self)).
Proof.
  intros Halloc Hfree Hself. unfold run.
  match goal with |- context [for_ ?l ?b ?s] =>
    assert (P (snd (for_ l b s)).1) as Hfin end.
  { apply (for_preserves (λ st, P st.1)); [|done].
    intros [i reqs] [s am] _ Hs. simpl in Hs. rewrite timestep_unfold.
    pose proof (Hfree i s Hs) as H1.
    destruct (free_resources i s) as [[[]|e] s1]; simpl in *; [|done].
    assert (P (snd (for_ reqs (handle_req shortest_path global_i_bound i) s1))) as H2.
    { apply for_preserves; [|done]. intros [[sw size] duration] s' _ Hs'.
      unfold handle_req. destruct (decide (0 < duration)%Z); [|done].
      destruct (sw_to_ctrl s' !! sw) as [ctrl|]; [|done].
      destruct (handle_request _ _ ctrl (graph s') sw size duration); [|done].
      by apply Halloc. }
    destruct (for_ reqs _ s1) as [[[]|e] s2]; simpl in *; [|done].
    by destruct (for_ (metric_fcns s2) (record_metric s2) am). }
  match goal with |- context [for_ ?l ?b ?s] =>
    destruct (for_ l b s) as [[[]|e] [self' all_metrics']] end; done.
Qed.

(** The same, for a property that the allocations keep only for the amounts
    a workload asks for. *)
Lemma run_preserves_sizes (P : LinkBalancerSim → Prop) (Q : Qc → Prop) workload self :
  (∀ path r whenfree s, Q r → P s → P (snd (allocate_resources path r whenfree s))) →
  (∀ timestep s, P s → P (snd (free_resources timestep s))) →
  (∀ reqs sw size duration, reqs ∈ workload → (sw, size, duration) ∈ reqs → Q size) →
  P self → P (snd (run shortest_path global_i_bound workload self)).
Proof.
  intros Halloc Hfree Hsizes Hself. unfold run.
  match goal with |- context [for_ ?l ?b ?s] =>
    assert (P (snd (for_ l b s)).1) as Hfin end.
  { apply (for_preserves (λ st, P st.1)); [|done].
    intros [i reqs] [s am] Hin Hs. simpl in Hs. rewrite timestep_unfold.
    apply elem_of_enumerate in Hin.
    pose proof (Hfree i s Hs) as H1.
    destruct (free_resources i s) as [[[]|e] s1]; simpl in *; [|done].
    assert (P (snd (for_ reqs (handle_req shortest_path global_i_bound i) s1))) as H2.
    { apply for_preserves; [|done]. intros [[sw size] duration] s' Hreq Hs'.
      unfold handle_req. destruct (decide (0 < duration)%Z); [|done].
      destruct (sw_to_ctrl s' !! sw) as [ctrl|]; [|done].
      destruct (handle_request _ _ ctrl (graph s') sw size duration); [|done].
      apply Halloc; [by eapply Hsizes|done]. }
    destruct (for_ reqs _ s1) as [[[]|e] s2]; simpl in *; [|done].
    by destruct (for_ (metric_fcns s2) (record_metric s2) am). }
  match goal with |- context [for_ ?l ?b ?s] =>
    destruct (for_ l b s) as [[[]|e] [self' all_metrics']] end; done.
Qed.

(** [C2] Starting from a simulation whose ledger is empty and whose edges
    all satisfy [0 ≤ used ≤ capacity], with every capacity, utilisation and
    request size an integer of magnitude at most 2^52, the object that [run]
    leaves behind satisfies [0 ≤ used ≤ capacity] on every edge, and every
    utilisation is still such an integer, for every workload of non-negative
    request sizes, whether the run ends normally or by an exception.  Since
    every prefix of a workload is a workload, this covers every state between
    two ledger calls of the loop. *)
Theorem run_preserves_capacity_bounds workload self :
  simple_paths shortest_path → nonneg_sizes workload → whole_sizes workload →
  active_flows self = ∅ →
  (∀ k e, edge (graph self) !! k = Some e →
          0 ≤ used e ∧ used e ≤ capacity e ∧ whole (used e) ∧ whole (capacity e)) →
  ∀ k e, edge (graph (snd (run shortest_path global_i_bound workload self))) !! k
         = Some e →
         0 ≤ used e ∧ used e ≤ capacity e ∧ whole (used e) ∧ whole (capacity e).
Proof.
  intros Hsp Hnonneg Hwhole Haf Hbounds. apply (whole_bounds self).
  - intros k e He. by destruct (Hbounds k e He) as (_ & _ & _ & ?).
  - apply (run_preserves (same_structure self)); [..|apply same_structure_refl].
    + intros path r whenfree s Hs. eapply same_structure_trans; [done|].
      apply allocate_resources_structure.
    + intros timestep s Hs. eapply same_structure_trans; [done|].
      apply free_resources_structure.
  - apply run_consistent; [done..|]. apply ledger_consistent_start; [done|].
    intros k e He. by destruct (Hbounds k e He) as (? & ? & _).
  - apply (run_preserves_sizes integral whole).
    + intros path r whenfree s Hr. apply allocate_resources_integral.
      by apply whole_integer_valued.
    + apply free_resources_integral.
    + done.
    + split.
      * intros k e He. apply whole_integer_valued.
        by destruct (Hbounds k e He) as (_ & _ & ? & _).
      * intros t flows f. by rewrite Haf, lookup_empty.
Qed.

(** [X8] A run, ended normally or by an exception, changes nothing but
    [used] values and the ledger: the graph keeps its nodes, its edges and
    their capacities, and the servers, the switch-to-controller map and the
    registered metrics stay as they were. *)
Theorem run_keeps_structure workload self :
  same_structure self (snd (run shortest_path global_i_bound workload self)).
Proof.
  apply (run_preserves (same_structure self)); [..|apply same_structure_refl].
  - intros path r whenfree s Hs. eapply same_structure_trans; [done|].
    apply allocate_resources_structure.
  - intros timestep s Hs. eapply same_structure_trans; [done|].
    apply free_resources_structure.
Qed.

(** [X10] A workload with a request of non-positive duration never yields a
    result: whatever the other requests are, the run ends by an exception. *)
Theorem run_rejects_nonpositive_duration workload self reqs sw size duration :
  reqs ∈ workload → (sw, size, duration) ∈ reqs → (duration ≤ 0)%Z →
  ∃ e, fst (run shortest_path global_i_bound workload self) = Raise e.
Proof.
  intros Hreqs Hreq Hdur.
  destruct (elem_of_enumerate_2 workload reqs Hreqs) as [i Hi].
  assert (∀ s, ∃ e, fst (handle_req shortest_path global_i_bound i
                            (sw, size, duration) s) = Raise e) as Hbad.
  { intros s. exists AssertionError. unfold handle_req.
    rewrite decide_False; [done|lia]. }
  assert (∀ st, ∃ e, fst (timestep shortest_path global_i_bound (i, reqs) st) = Raise e)
    as Hstep.
  { intros [s am]. rewrite timestep_unfold.
    destruct (free_resources i s) as [[[]|e] s1]; [|by exists e].
    destruct (for_raises reqs (handle_req shortest_path global_i_bound i)
                (sw, size, duration) s1 Hreq Hbad) as [e He].
    destruct (for_ reqs _ s1) as [[[]|e'] s2]; [done|]. by exists e'. }
  unfold run.
  match goal with |- context [for_ ?l ?b ?s] =>
    destruct (for_raises l b (i, reqs) s Hi Hstep) as [e He];
    destruct (for_ l b s) as [[[]|e'] [self' am']] end; [done|].
  by exists e'.
Qed.

(** The first request of a run is checked before anything is allocated. *)
Lemma run_asserts_first_duration sw size duration reqs workload self :
  active_flows self !! 0%Z = None → (duration ≤ 0)%Z →
  run shortest_path global_i_bound (((sw, size, duration) :: reqs) :: workload) self
  = (Raise AssertionError, self).
Proof.
  intros Hnone Hdur. unfold run, enumerate. rewrite imap_cons. cbn [for_].
  unfold M_bind. rewrite timestep_unfold, free_resources_no_bucket by done.
  cbn [for_]. unfold M_bind, handle_req at 1. by rewrite decide_False by lia.
Qed.

Lemma allocate_resources_keys path r whenfree s k :
  is_Some (active_flows (snd (allocate_resources path r whenfree s)) !! k) →
  is_Some (active_flows s !! k) ∨ k = whenfree.
Proof.
  unfold allocate_resources. destruct path as [[|x path]|]; [by left| |by left].
  destruct (links_fit _ _ _) as [[|]|]; [|by left..].
  destruct (for_ _ _ _) as [[[]|] g']; simpl; [|by left].
  rewrite lookup_insert_is_Some'. intros [->|?]; [by right|by left].
Qed.

Lemma timestep_keys t reqs st st' :
  (∀ k, is_Some (active_flows st.1 !! k) → (t ≤ k)%Z) →
  timestep shortest_path global_i_bound (t, reqs) st = (Ok tt, st') →
  ∀ k, is_Some (active_flows st'.1 !! k) → (t + 1 ≤ k)%Z.
Proof.
  destruct st as [s am]. intros Hkeys. rewrite timestep_unfold. simpl in Hkeys.
  assert (∀ s1, free_resources t s = (Ok tt, s1) →
                ∀ k, is_Some (active_flows s1 !! k) → (t + 1 ≤ k)%Z) as Hfree.
  { unfold free_resources. destruct (active_flows s !! t) as [flows|] eqn:Hb.
    - destruct (for_ flows free_flow (graph s)) as [[[]|] g']; [|done].
      intros s1 [= <-] k. simpl. rewrite lookup_delete_is_Some.
      intros [Hne Hk]. specialize (Hkeys k Hk). lia.
    - intros s1 [= <-] k Hk. specialize (Hkeys k Hk).
      assert (k ≠ t) by (intros ->; rewrite Hb in Hk; by destruct Hk). lia. }
  destruct (free_resources t s) as [[[]|e] s1]; [|done].
  specialize (Hfree s1 eq_refl).
  assert (∀ k, is_Some (active_flows
                 (snd (for_ reqs (handle_req shortest_path global_i_bound t) s1)) !! k) →
               (t + 1 ≤ k)%Z) as Hreqs.
  { apply (for_preserves (λ s', ∀ k, is_Some (active_flows s' !! k) → (t + 1 ≤ k)%Z));
      [|done].
    intros [[sw size] duration] s' _ Hs' k. unfold handle_req.
    destruct (decide (0 < duration)%Z); [|apply Hs'].
    destruct (sw_to_ctrl s' !! sw) as [ctrl|]; [|apply Hs'].
    destruct (handle_request _ _ ctrl (graph s') sw size duration); [|apply Hs'].
    intros [Hk| ->]%allocate_resources_keys; [by apply Hs'|lia]. }
  destruct (for_ reqs _ s1) as [[[]|e] s2]; [|done]. simpl in Hreqs.
  destruct (for_ (metric_fcns s2) (record_metric s2) am) as [r am'].
  by intros [= _ <-].
Qed.

Lemma timesteps_keys workload t st st' :
  (∀ k, is_Some (active_flows st.1 !! k) → (t ≤ k)%Z) →
  for_ (imap (λ i reqs, ((t + Z.of_nat i)%Z, reqs)) workload)
       (timestep shortest_path global_i_bound) st = (Ok tt, st') →
  ∀ k, is_Some (active_flows st'.1 !! k) → (t + Z.of_nat (length workload) ≤ k)%Z.
Proof.
  revert t st; induction workload as [|reqs workload IH]; intros t st Hkeys.
  { simpl. intros [= <-] k Hk. specialize (Hkeys k Hk). lia. }
  rewrite imap_cons. cbn [for_]. unfold M_bind. rewrite Z.add_0_r.
  destruct (timestep _ _ (t, reqs) st) as [[[]|e] st1] eqn:Hstep; [|done].
  rewrite (imap_ext _ (λ i reqs, ((t + 1 + Z.of_nat i)%Z, reqs)) workload)
    by (intros; simpl; f_equal; lia).
  intros Hrest k Hk.
  pose proof (IH (t + 1)%Z st1 (timestep_keys t reqs st st1 Hkeys Hstep) Hrest k Hk).
  simpl. lia.
Qed.

(** [X11] Flows do not outlive their expiry: when the ledger holds no bucket
    for a past timestep at the start and the run ends normally, every bucket
    left in the ledger expires at a timestep the workload did not reach. *)
Theorem run_leaves_future_flows workload self all_metrics self' :
  (∀ k, is_Some (active_flows self !! k) → (0 ≤ k)%Z) →
  run shortest_path global_i_bound workload self = (Ok all_metrics, self') →
  ∀ k, is_Some (active_flows self' !! k) → (Z.of_nat (length workload) ≤ k)%Z.
Proof.
  intros Hkeys. unfold run, enumerate.
  match goal with |- context [for_ ?l ?b ?s] =>
    destruct (for_ l b s) as [[[]|e] [s' am']] eqn:Hloop end; [|done].
  intros [= _ <-] k Hk. rename s' into self'.
  rewrite (imap_ext _ (λ i reqs, ((0 + Z.of_nat i)%Z, reqs)) workload) in Hloop
    by (intros; simpl; f_equal; lia).
  pose proof (timesteps_keys workload 0 (self, _) (self', am') Hkeys Hloop k Hk). lia.
Qed.

(** [X12] On an empty workload the run frees nothing, measures nothing and
    returns a dict with an empty list for each registered metric and no
    other key; the simulation object is untouched. *)
Theorem run_empty_workload self :
  ∃ all_metrics,
    run shortest_path global_i_bound [] self = (Ok all_metrics, self) ∧
    ∀ name, all_metrics !! name =
            if decide (name ∈ fcn_name <$> metric_fcns self) then Some [] else None.
Proof.
  eexists. split; [done|]. intros name.
  by rewrite initial_metrics_lookup, lookup_empty.
Qed.

End FurtherRun.

(** ** Path selection *)

Lemma foldl_max_spec (x : Qc) l :
  let m := foldl (λ m y, if decide (m < y) then y else m) x l in
  m ∈ x :: l ∧ ∀ y, y ∈ x :: l → y ≤ m.
Proof.
  revert x; induction l as [|z l IH]; intros x; simpl.
  { split; [left|]. intros y Hy. apply list_elem_of_singleton in Hy as ->.
    apply Qcle_refl. }
  destruct (IH (if decide (x < z) then z else x)) as [Hin Hmax]. split.
  - apply elem_of_cons in Hin as [->|Hin].
    + destruct (decide (x < z)); [right; left|left].
    + by do 2 right.
  - intros y Hy.
    assert (y ≤ (if decide (x < z) then z else x) ∨ y ∈ l) as [Hle|Hl].
    { apply elem_of_cons in Hy as [->|Hy].
      - left. destruct (decide (x < z)); [by apply Qclt_le_weak|apply Qcle_refl].
      - apply elem_of_cons in Hy as [->|Hy]; [|by right].
        left. destruct (decide (x < z)); [apply Qcle_refl|by apply Qcnot_lt_le]. }
    + eapply Qcle_trans; [done|]. apply Hmax. left.
    + apply Hmax. by right.
Qed.

(** [max] returns an element that bounds all the others. *)
Lemma py_max_spec l m : py_max l = Ok m → m ∈ l ∧ ∀ y, y ∈ l → y ≤ m.
Proof.
  destruct l as [|x l]; [done|]. intros [= <-]. apply foldl_max_spec.
Qed.

Lemma map_res_ext {A B} (f f' : A → res B) l :
  (∀ x, x ∈ l → f x = f' x) → map_res f l = map_res f' l.
Proof.
  induction l as [|x l IH]; intros Hff'; [done|]. simpl.
  rewrite (Hff' x) by left. rewrite IH; [done|]. intros y Hy. apply Hff'. by right.
Qed.

Lemma negb_considered self u v :
  negb (bool_decide (v ∈ switches self) || bool_decide (u ∈ switches self)) = true
  ↔ ¬ considered self (u, v).
Proof.
  unfold considered. simpl. rewrite negb_true_iff, orb_false_iff.
  rewrite !bool_decide_eq_false. tauto.
Qed.

Section Selection.

Variable shortest_path : DiGraph → node → node → res (list node).
Variable global_i_bound : bool.

(** The loop over the candidates, from any current best. *)
Lemma best_path_spec self g util paths bp0 bm0 bp bm :
  best_path global_i_bound self g util paths (bp0, bm0) = Ok (bp, bm) →
  (bp = bp0 ∧ bm = bm0 ∧
   ∀ q, q ∈ paths →
        ∃ m, path_score global_i_bound self g util q = Ok m ∧ bm0 ≤ m) ∨
  (∃ l1 p l2,
     paths = l1 ++ p :: l2 ∧ bp = Some p ∧
     path_score global_i_bound self g util p = Ok bm ∧ bm < bm0 ∧
     (∀ q, q ∈ l1 →
           ∃ m, path_score global_i_bound self g util q = Ok m ∧ bm < m) ∧
     (∀ q, q ∈ l2 →
           ∃ m, path_score global_i_bound self g util q = Ok m ∧ bm ≤ m)).
Proof.
  revert bp0 bm0; induction paths as [|path paths IH]; intros bp0 bm0.
  { simpl. intros [= <- <-]. left. split; [done|]. split; [done|].
    intros q. by rewrite elem_of_nil. }
  cbn [best_path].
  destruct (path_score global_i_bound self g util path) as [pm|e] eqn:Hscore.
  2:{ unfold path_score in Hscore.
      destruct (link_metrics _ _ _ _ _ _) as [lm|]; [|done]. simpl in *.
      by rewrite Hscore. }
  assert (res_bind (link_metrics global_i_bound self g util (links path) [])
            (λ linkmetrics,
               res_bind (py_max linkmetrics)
                 (λ pathmetric,
                    if decide (pathmetric < bm0)
                    then best_path global_i_bound self g util paths (Some path, pathmetric)
                    else best_path global_i_bound self g util paths (bp0, bm0))) =
          (if decide (pm < bm0)
           then best_path global_i_bound self g util paths (Some path, pm)
           else best_path global_i_bound self g util paths (bp0, bm0))) as ->.
  { unfold path_score in Hscore.
    destruct (link_metrics _ _ _ _ _ _) as [lm|]; [|done]. simpl in *.
    by rewrite Hscore. }
  destruct (decide (pm < bm0)) as [Hlt|Hge]; intros Hbest.
  - right. destruct (IH _ _ Hbest) as [(-> & -> & Hall)|
      (l1 & p & l2 & -> & -> & Hp & Hlt' & Hl1 & Hl2)].
    + exists [], path, paths. split; [done|]. split; [done|]. split; [done|].
      split; [done|]. split; [|done]. intros q. by rewrite elem_of_nil.
    + exists (path :: l1), p, l2. split; [done|]. split; [done|]. split; [done|].
      split; [by eapply Qclt_trans|]. split; [|done].
      intros q. rewrite elem_of_cons. intros [->|Hq]; [by exists pm|by apply Hl1].
  - apply Qcnot_lt_le in Hge.
    destruct (IH _ _ Hbest) as [(-> & -> & Hall)|
      (l1 & p & l2 & -> & -> & Hp & Hlt' & Hl1 & Hl2)].
    + left. split; [done|]. split; [done|]. intros q. rewrite elem_of_cons.
      intros [->|Hq]; [by exists pm|by apply Hall].
    + right. exists (path :: l1), p, l2. split; [done|]. split; [done|].
      split; [done|]. split; [done|]. split; [|done].
      intros q. rewrite elem_of_cons. intros [->|Hq]; [|by apply Hl1].
      exists pm. split; [done|]. by eapply Qclt_le_trans.
Qed.

(** [X13] When [handle_request] returns, every candidate has a score, the
    maximum of the metrics of its scored links.  It returns no path exactly
    when no candidate scores below 1; otherwise it returns the candidate with
    the least score, the first of them in server order when several share
    it, and that score is below 1. *)
Theorem handle_request_selects_least self sim_graph sw util duration r :
  handle_request shortest_path global_i_bound self sim_graph sw util duration = Ok r →
  ∃ paths,
    map_res (λ srv, shortest_path (deref sim_graph (ctrl_graph self)) srv sw)
            (ctrl_servers self) = Ok paths ∧
    match r with
    | None =>
        ∀ q, q ∈ paths →
             ∃ m, path_score global_i_bound self
                    (deref sim_graph (ctrl_graph self)) util q = Ok m ∧ 1 ≤ m
    | Some p =>
        ∃ l1 l2 bm,
          paths = l1 ++ p :: l2 ∧
          path_score global_i_bound self
            (deref sim_graph (ctrl_graph self)) util p = Ok bm ∧ bm < 1 ∧
          (∀ q, q ∈ l1 →
                ∃ m, path_score global_i_bound self
                       (deref sim_graph (ctrl_graph self)) util q = Ok m ∧ bm < m) ∧
          (∀ q, q ∈ l2 →
                ∃ m, path_score global_i_bound self
                       (deref sim_graph (ctrl_graph self)) util q = Ok m ∧ bm ≤ m)
    end.
Proof.
  unfold handle_request.
  destruct (map_res _ (ctrl_servers self)) as [paths|] eqn:Hpaths; [|done]. simpl.
  destruct (best_path _ _ _ _ paths _) as [[bp bm]|] eqn:Hbest; [|done]. simpl.
  intros [= <-]. exists paths. split; [done|].
  destruct (best_path_spec _ _ _ _ _ _ _ _ Hbest) as [(-> & -> & Hall)|
    (l1 & p & l2 & -> & -> & Hp & Hlt & Hl1 & Hl2)]; [done|].
  by exists l1, l2, bm.
Qed.

(** The loop over the links reads the considered links only. *)
Lemma link_metrics_ext self g g' util ls acc :
  (∀ k, k ∈ ls → considered self k → edge g !! k = edge g' !! k) →
  link_metrics global_i_bound self g util ls acc =
  link_metrics global_i_bound self g' util ls acc.
Proof.
  revert acc; induction ls as [|[u v] ls IH]; intros acc Hagree; [done|].
  cbn [link_metrics].
  assert (∀ acc', link_metrics global_i_bound self g util ls acc' =
                  link_metrics global_i_bound self g' util ls acc') as Hrest.
  { intros acc'. apply IH. intros k Hk. apply Hagree. by right. }
  destruct (negb _) eqn:Hneg; [apply Hrest|].
  rewrite <- (Hagree (u, v)); [|left|].
  2:{ destruct (decide (considered self (u, v))) as [|Hn]; [done|].
      apply negb_considered in Hn. by rewrite Hn in Hneg. }
  destruct (edge g !! (u, v)) as [e|]; [|done].
  destruct (decide (capacity e = 0)); [done|].
  destruct (decide (1 < (used e + util) / capacity e)); by rewrite Hrest.
Qed.

Lemma best_path_ext self g g' util paths best :
  (∀ p k, p ∈ paths → k ∈ links p → considered self k →
          edge g !! k = edge g' !! k) →
  best_path global_i_bound self g util paths best =
  best_path global_i_bound self g' util paths best.
Proof.
  revert best; induction paths as [|path paths IH]; intros [bp bm] Hagree; [done|].
  cbn [best_path].
  rewrite (link_metrics_ext self g g') by (intros k; apply (Hagree path); left).
  destruct (link_metrics _ _ g' _ _ _) as [lm|]; [|done]. simpl.
  destruct (py_max lm) as [pm|]; [|done]. simpl.
  destruct (decide (pm < bm)); apply IH; intros p k Hp; apply Hagree; by right.
Qed.

(** [X14] Partial visibility: the answer of [handle_request] depends on the
    graph only through the candidate paths and the edges that have one of the
    controller's switches as an endpoint.  On two graphs that give the same
    shortest paths and agree on those edges it returns the same path, or
    raises the same exception, whatever the other edges carry. *)
Theorem handle_request_reads_considered_links self g g' sw util duration :
  (∀ srv, srv ∈ ctrl_servers self →
          shortest_path (deref g (ctrl_graph self)) srv sw =
          shortest_path (deref g' (ctrl_graph self)) srv sw) →
  (∀ k, considered self k →
        edge (deref g (ctrl_graph self)) !! k = edge (deref g' (ctrl_graph self)) !! k) →
  handle_request shortest_path global_i_bound self g sw util duration =
  handle_request shortest_path global_i_bound self g' sw util duration.
Proof.
  intros Hsp Hedges. unfold handle_request.
  rewrite (map_res_ext _ (λ srv, shortest_path (deref g' (ctrl_graph self)) srv sw))
    by done.
  destruct (map_res _ (ctrl_servers self)) as [paths|]; [|done]. simpl.
  by rewrite (best_path_ext self _ (deref g' (ctrl_graph self)))
    by (intros; by apply Hedges).
Qed.

(** A returned path has a score, and it is below 1. *)
Lemma handle_request_Some_score self sim_graph sw util duration p :
  handle_request shortest_path global_i_bound self sim_graph sw util duration
  = Ok (Some p) →
  ∃ bm, path_score global_i_bound self (deref sim_graph (ctrl_graph self)) util p
        = Ok bm ∧ bm < 1.
Proof.
  unfold handle_request.
  destruct (map_res _ (ctrl_servers self)) as [paths|]; [|done]. simpl.
  destruct (best_path _ _ _ _ paths _) as [[bp bm]|] eqn:Hbest; [|done]. simpl.
  intros [= ->].
  destruct (best_path_spec _ _ _ _ _ _ _ _ Hbest) as [(? & _)|
    (l1 & p' & l2 & _ & [= <-] & Hp & Hlt & _)]; [done|].
  by exists bm.
Qed.

End Selection.

(** Without a global [i], the loop over the links ends normally only if no
    considered link is oversubscribed, and then it scores them all. *)
Lemma link_metrics_unbound self g util ls acc lm :
  link_metrics false self g util ls acc = Ok lm →
  (∀ x, x ∈ acc → x ∈ lm) ∧
  ∀ k, k ∈ ls → considered self k →
       ∃ e, edge g !! k = Some e ∧ capacity e ≠ 0 ∧
            (used e + util) / capacity e ∈ lm.
Proof.
  revert acc; induction ls as [|[u v] ls IH]; intros acc.
  { simpl. intros [= <-]. split; [done|]. intros k. by rewrite elem_of_nil. }
  cbn [link_metrics].
  destruct (negb _) eqn:Hneg.
  { intros Hrest. destruct (IH _ Hrest) as [Hacc Hls]. split; [done|].
    intros k. rewrite elem_of_cons. intros [->|Hk] Hcons; [|by apply Hls].
    by apply negb_considered in Hneg. }
  destruct (edge g !! (u, v)) as [e|] eqn:He; [|done].
  destruct (decide (capacity e = 0)); [done|].
  destruct (decide (1 < (used e + util) / capacity e)); [done|].
  intros Hrest. destruct (IH _ Hrest) as [Hacc Hls]. split.
  - intros x Hx. apply Hacc. apply elem_of_app. by left.
  - intros k. rewrite elem_of_cons. intros [->|Hk] Hcons; [|by apply Hls].
    exists e. split; [done|]. split; [done|]. apply Hacc. apply elem_of_app. right. left.
Qed.

(** [C1] A path with an oversubscribed considered link is never the path
    that [handle_request] returns.  The module binds no global [i], so
    reporting an oversubscribed link raises [NameError] and ends the call:
    the loop over the links of a path runs to its end only if no considered
    link of the path is oversubscribed, and a returned path is one whose
    loop did.  On the two-switch topology with the link from [s1] to [sw1]
    full, a request of one unit at [sw2] has the single candidate
    [s1, sw1, sw2], whose first link would be oversubscribed: the call
    raises [NameError] and returns no path. *)
Theorem handle_request_never_returns_oversubscribed :
  (∀ shortest_path self sim_graph sw util duration q k e,
     k ∈ links q → considered self k →
     edge (deref sim_graph (ctrl_graph self)) !! k = Some e →
     1 < (used e + util) / capacity e →
     handle_request shortest_path false self sim_graph sw util duration
     ≠ Ok (Some q)) ∧
  handle_request two_switch_paths false both_switches_ctrl s1_link_full "sw2" 1 1
  = Raise NameError.
Proof.
  split; [|by_compute].
  intros shortest_path self sim_graph sw util duration q k e Hk Hcons He Hover Hreq.
  destruct (handle_request_Some_score _ _ _ _ _ _ _ _ Hreq) as (bm & Hscore & Hlt).
  unfold path_score in Hscore.
  destruct (link_metrics false self _ util (links q) []) as [lm|] eqn:Hlm; [|done].
  simpl in Hscore. destruct (py_max_spec _ _ Hscore) as [_ Hmax].
  destruct (link_metrics_unbound _ _ _ _ _ _ Hlm) as [_ Hls].
  destruct (Hls k Hk Hcons) as (e' & He' & _ & Hin).
  rewrite He in He'. injection He' as <-.
  apply (Qclt_not_le _ _ Hover). eapply Qcle_trans; [by apply Hmax|].
  by apply Qclt_le_weak.
Qed.

(** [X15] When the module has no global [i], a path that [handle_request]
    returns has room on every considered link: each is an edge of non-zero
    capacity whose projected utilization [(used + util) / capacity] is below
    1. *)
Theorem handle_request_unbound_i_fits shortest_path self sim_graph sw util duration p :
  handle_request shortest_path false self sim_graph sw util duration = Ok (Some p) →
  ∀ k, k ∈ links p → considered self k →
       ∃ e, edge (deref sim_graph (ctrl_graph self)) !! k = Some e ∧
            capacity e ≠ 0 ∧ (used e + util) / capacity e < 1.
Proof.
  intros Hreq k Hk Hcons.
  destruct (handle_request_Some_score _ _ _ _ _ _ _ _ Hreq) as (bm & Hscore & Hlt).
  unfold path_score in Hscore.
  destruct (link_metrics false self _ util (links p) []) as [lm|] eqn:Hlm; [|done].
  simpl in Hscore. destruct (py_max_spec _ _ Hscore) as [_ Hmax].
  destruct (link_metrics_unbound _ _ _ _ _ _ Hlm) as [_ Hls].
  destruct (Hls k Hk Hcons) as (e & He & Hcap & Hin).
  exists e. split; [done|]. split; [done|].
  eapply Qcle_lt_trans; [by apply Hmax|done].
Qed.

(** ** The constructor's partition of the switches *)

Lemma NoDup_app_disjoint {A} (l k : list A) :
  NoDup (l ++ k) ↔ NoDup l ∧ (∀ x, x ∈ l → x ∉ k) ∧ NoDup k.
Proof. apply list.NoDup_app. Qed.

Lemma map_switches_spec ctrl sws (m : gmap node Controller) :
  match map_switches ctrl sws m with
  | Ok m' =>
      NoDup sws ∧ (∀ sw, sw ∈ sws → m !! sw = None) ∧
      ∀ sw, m' !! sw = if decide (sw ∈ sws) then Some ctrl else m !! sw
  | Raise e =>
      e = AssertionError ∧ ¬ (NoDup sws ∧ ∀ sw, sw ∈ sws → m !! sw = None)
  end.
Proof.
  revert m; induction sws as [|sw sws IH]; intros m; cbn [map_switches].
  { split; [constructor|]. split; [intros sw Hsw; by apply elem_of_nil in Hsw|].
    intros sw. rewrite decide_False; [done|]. intros Hsw. by apply elem_of_nil in Hsw. }
  destruct (m !! sw) as [c|] eqn:Hsw.
  { split; [done|]. intros [_ Hnone]. specialize (Hnone sw (list_elem_of_here _ _)).
    by rewrite Hsw in Hnone. }
  specialize (IH (<[sw := ctrl]> m)).
  destruct (map_switches ctrl sws (<[sw := ctrl]> m)) as [m'|e].
  - destruct IH as (Hnd & Hnone & Hlook).
    assert (sw ∉ sws) as Hnotin.
    { intros Hin. specialize (Hnone sw Hin). by rewrite lookup_insert_eq in Hnone. }
    split; [by constructor|]. split.
    + intros s. rewrite elem_of_cons. intros [->|Hs]; [done|].
      specialize (Hnone s Hs). rewrite lookup_insert_ne in Hnone; [done|].
      by intros ->.
    + intros s. rewrite Hlook. destruct (decide (s ∈ sws)) as [Hs|Hs].
      * rewrite decide_True; [done|]. by right.
      * destruct (decide (s = sw)) as [->|Hne].
        -- rewrite decide_True by left. apply lookup_insert_eq.
        -- rewrite decide_False by (by rewrite not_elem_of_cons).
           by rewrite lookup_insert_ne.
  - destruct IH as [-> Hnot]. split; [done|]. intros [Hnd Hnone]. apply Hnot.
    pose proof (NoDup_cons_1_1 _ _ Hnd) as Hnotin. split; [by eapply NoDup_cons_1_2|].
    intros s Hs. rewrite lookup_insert_ne by (by intros ->).
    apply Hnone. by right.
Qed.

Lemma map_ctrls_spec ctrls (m : gmap node Controller) :
  match map_ctrls ctrls m with
  | Ok m' =>
      NoDup (claimed_switches ctrls) ∧
      (∀ sw, sw ∈ claimed_switches ctrls → m !! sw = None) ∧
      ∀ sw c, m' !! sw = Some c ↔
              m !! sw = Some c ∨ (c ∈ ctrls ∧ sw ∈ switches c)
  | Raise e =>
      e = AssertionError ∧
      ¬ (NoDup (claimed_switches ctrls) ∧
         ∀ sw, sw ∈ claimed_switches ctrls → m !! sw = None)
  end.
Proof.
  unfold claimed_switches.
  revert m; induction ctrls as [|ctrl ctrls IH]; intros m; cbn [map_ctrls].
  { split; [constructor|]. split; [intros sw Hsw; by apply elem_of_nil in Hsw|].
    intros sw c. split; [by left|]. intros [?|[Hc _]]; [done|].
    by apply elem_of_nil in Hc. }
  rewrite bind_cons.
  pose proof (map_switches_spec ctrl (switches ctrl) m) as Hsw.
  destruct (map_switches ctrl (switches ctrl) m) as [m1|e]; cbn [res_bind].
  2:{ destruct Hsw as [-> Hnot]. split; [done|]. intros [Hnd Hnone]. apply Hnot.
      apply NoDup_app_disjoint in Hnd as (Hnd & _ & _). split; [done|].
      intros sw Hsw. apply Hnone. apply elem_of_app. by left. }
  destruct Hsw as (Hnd1 & Hnone1 & Hlook1). specialize (IH m1).
  destruct (map_ctrls ctrls m1) as [m'|e].
  - destruct IH as (Hnd & Hnone & Hlook).
    assert (∀ sw, sw ∈ ctrls ≫= switches → (sw ∉ switches ctrl) ∧ m !! sw = None)
      as Hrest.
    { intros sw Hsw. specialize (Hnone sw Hsw). rewrite Hlook1 in Hnone.
      by destruct (decide (sw ∈ switches ctrl)). }
    split.
    { apply NoDup_app_disjoint. split; [done|]. split; [|done].
      intros sw Hsw Hsw'. by destruct (Hrest sw Hsw'). }
    split.
    { intros sw. rewrite elem_of_app. intros [Hsw|Hsw]; [by apply Hnone1|].
      by destruct (Hrest sw Hsw). }
    intros sw c. rewrite Hlook, Hlook1, elem_of_cons.
    destruct (decide (sw ∈ switches ctrl)) as [Hin|Hnin].
    + split.
      * intros [[= <-]|[Hc Hsw]]; right; [split; [by left|done]|].
        split; [by right|done].
      * intros [Hm|[[->|Hc] Hsw]]; [|by left|by right].
        by rewrite Hnone1 in Hm.
    + split.
      * intros [Hm|[Hc Hsw]]; [by left|]. right. split; [by right|done].
      * intros [Hm|[[->|Hc] Hsw]]; [by left|done|by right].
  - destruct IH as [-> Hnot]. split; [done|]. intros [Hnd Hnone]. apply Hnot.
    apply NoDup_app_disjoint in Hnd as (_ & Hdisj & Hnd). split; [done|].
    intros sw Hsw. rewrite Hlook1.
    rewrite decide_False by (intros Hin; by apply (Hdisj sw)).
    apply Hnone. apply elem_of_app. by right.
Qed.

(** [X16] The constructor succeeds exactly when no switch is claimed twice,
    by two controllers or twice by one; it then maps every claimed switch to
    the controller that claims it and no other switch.  Otherwise its
    assertion fails. *)
Theorem LinkBalancerSim_init_partition g ctrls :
  match LinkBalancerSim_init g ctrls with
  | Ok self =>
      NoDup (claimed_switches ctrls) ∧
      ∀ sw c, sw_to_ctrl self !! sw = Some c ↔ c ∈ ctrls ∧ sw ∈ switches c
  | Raise e => e = AssertionError ∧ ¬ NoDup (claimed_switches ctrls)
  end.
Proof.
  unfold LinkBalancerSim_init. pose proof (map_ctrls_spec ctrls ∅) as Hspec.
  destruct (map_ctrls ctrls ∅) as [m|e]; cbn [res_bind].
  - destruct Hspec as (Hnd & _ & Hlook). split; [done|]. intros sw c. simpl.
    rewrite Hlook, lookup_empty. split; [by intros [?|?]|by right].
  - destruct Hspec as [-> Hnot]. split; [done|]. intros Hnd. apply Hnot.
    split; [done|]. intros sw _. apply lookup_empty.
Qed.

(** [X17] A simulation object the constructor returns has the graph it was
    given, an empty ledger, the two built-in metrics, and as servers exactly
    the nodes of type server, each listed once. *)
Theorem LinkBalancerSim_init_state g ctrls self :
  LinkBalancerSim_init g ctrls = Ok self →
  graph self = g ∧ active_flows self = ∅ ∧
  metric_fcns self = [fcn_rmse_links; fcn_rmse_servers] ∧
  NoDup (servers self) ∧
  ∀ s, s ∈ servers self ↔ node_attr g !! s = Some (Some server).
Proof.
  unfold LinkBalancerSim_init. destruct (map_ctrls ctrls ∅) as [m|]; [|done].
  simpl. intros [= <-]; simpl. do 3 (split; [done|]). split.
  - apply NoDup_server_nodes, NoDup_fst_map_to_list.
  - intros s. by rewrite elem_of_server_nodes, elem_of_map_to_list.
Qed.

Lemma LinkBalancerSim_init_state_witness :
  LinkBalancerSim_init two_switch_topo two_ctrls = Ok (two_ctrl_sim two_switch_topo) ∧
  graph (two_ctrl_sim two_switch_topo) = two_switch_topo ∧
  active_flows (two_ctrl_sim two_switch_topo) = ∅ ∧
  metric_fcns (two_ctrl_sim two_switch_topo) = [fcn_rmse_links; fcn_rmse_servers] ∧
  NoDup (servers (two_ctrl_sim two_switch_topo)) ∧
  ∀ s, s ∈ servers (two_ctrl_sim two_switch_topo) ↔
       node_attr two_switch_topo !! s = Some (Some server).
Proof.
  assert (LinkBalancerSim_init two_switch_topo two_ctrls =
          Ok (two_ctrl_sim two_switch_topo)) as H by by_compute.
  split; [exact H|].
  exact (LinkBalancerSim_init_state two_switch_topo two_ctrls
           (two_ctrl_sim two_switch_topo) H).
Defined.

(** ** The outcomes of the metrics *)

Lemma edge_pairs_fst g : (edge_pairs g).*1 = (λ ke, capacity ke.2) <$> map_to_list (edge g).
Proof. unfold edge_pairs. by rewrite <- list_fmap_compose. Qed.

Lemma edge_pairs_nil g : edge_pairs g = [] ↔ edge g = ∅.
Proof.
  unfold edge_pairs. rewrite <- map_to_list_empty_iff. split.
  - apply fmap_nil_inv.
  - by intros ->.
Qed.

Lemma Q2R_zero : Q2R (this 0%Qc) = 0%R.
Proof. unfold Q2R. simpl. Lra.lra. Qed.

Lemma sqrt_Q2R_zero : sqrt (Q2R (this 0%Qc)) = 0%R.
Proof. rewrite Q2R_zero. apply sqrt_0. Qed.

Lemma sqrt_Q2R_0 : sqrt (Q2R 0%Q) = 0%R.
Proof.
  replace (Q2R 0%Q) with 0%R; [apply sqrt_0|]. unfold Q2R. simpl. Lra.lra.
Qed.


Lemma server_pairs_Raise_kind g srvs acc e :
  server_pairs g srvs acc = Raise e → e = NetworkXError ∨ e = NotImplementedError.
Proof.
  revert acc; induction srvs as [|s srvs IH]; intros [[ut ct] ps]; [done|].
  cbn [server_pairs]. destruct (neighbors g s) as [ns|e'] eqn:Hn.
  - destruct ns as [|dst [|dst' ns]]; [intros [= <-]; by right| |intros [= <-]; by right].
    destruct (server_edge_Some g s dst Hn) as (ed & -> & _). apply IH.
  - intros [= <-]. left. unfold neighbors in Hn.
    destruct (node_attr g !! s); [done|]. by injection Hn as <-.
Qed.


(** ** Instances of the further properties *)

Lemma whole_intro (x : Qc) :
  x = Qc_of_Z (Qnum x) → (Z.abs (Qnum x) ≤ 2 ^ 52)%Z → whole x.
Proof. intros Hx Hbound. by exists (Qnum x). Qed.

Lemma single_step_whole : whole_sizes single_step_workload.
Proof.
  intros reqs sw size duration Hreqs. apply list_elem_of_singleton in Hreqs as ->.
  rewrite !elem_of_cons, elem_of_nil.
  intros [[= -> -> ->]|[[= -> -> ->]|[]]]; apply whole_intro; by_compute.
Qed.

Lemma two_switch_topo_whole k e :
  edge two_switch_topo !! k = Some e →
  0 ≤ used e ∧ used e ≤ capacity e ∧ whole (used e) ∧ whole (capacity e).
Proof.
  assert (map_Forall
            (λ _ e, 0 ≤ used e ∧ used e ≤ capacity e ∧
                    (used e = Qc_of_Z (Qnum (used e)) ∧
                     (Z.abs (Qnum (used e)) ≤ 2 ^ 52)%Z) ∧
                    (capacity e = Qc_of_Z (Qnum (capacity e)) ∧
                     (Z.abs (Qnum (capacity e)) ≤ 2 ^ 52)%Z))
            (edge two_switch_topo)) as Hall by by_compute.
  intros He. destruct (Hall k e He) as (? & ? & [? ?] & [? ?]).
  split; [done|]. split; [done|]. split; by apply whole_intro.
Qed.

Lemma run_preserves_capacity_bounds_witness :
  simple_paths two_switch_paths ∧
  nonneg_sizes single_step_workload ∧
  whole_sizes single_step_workload ∧
  active_flows (two_ctrl_sim two_switch_topo) = ∅ ∧
  (∀ k e, edge (graph (two_ctrl_sim two_switch_topo)) !! k = Some e →
          0 ≤ used e ∧ used e ≤ capacity e ∧ whole (used e) ∧ whole (capacity e)) ∧
  ∀ k e,
    edge (graph (snd (run two_switch_paths false single_step_workload
                        (two_ctrl_sim two_switch_topo)))) !! k = Some e →
    0 ≤ used e ∧ used e ≤ capacity e ∧ whole (used e) ∧ whole (capacity e).
Proof.
  split; [apply two_switch_paths_simple|].
  split; [apply single_step_nonneg|].
  split; [apply single_step_whole|].
  split; [reflexivity|].
  split; [apply two_switch_topo_whole|].
  apply (run_preserves_capacity_bounds two_switch_paths false single_step_workload
           (two_ctrl_sim two_switch_topo)).
  - apply two_switch_paths_simple.
  - apply single_step_nonneg.
  - apply single_step_whole.
  - reflexivity.
  - apply two_switch_topo_whole.
Defined.

Lemma allocate_then_free_calls_ok path r whenfree :
  call_allocate (Some path) r whenfree ∈ allocate_then_free_calls →
  0 ≤ r ∧ whole r ∧ NoDup (links path).
Proof.
  unfold allocate_then_free_calls. rewrite !elem_of_cons, elem_of_nil.
  intros [[= -> -> ->]|[[=]|[]]].
  split; [by_compute|]. split; [apply whole_intro; by_compute|by_compute].
Qed.

Lemma ledger_calls_keep_bounds_witness :
  (∀ path r whenfree,
     call_allocate (Some path) r whenfree ∈ allocate_then_free_calls →
     0 ≤ r ∧ whole r ∧ NoDup (links path)) ∧
  active_flows (two_ctrl_sim two_switch_topo) = ∅ ∧
  ∀ k e,
    edge (graph (snd (for_ allocate_then_free_calls do_call
                        (two_ctrl_sim two_switch_topo)))) !! k = Some e →
    0 ≤ used e ∧ used e ≤ capacity e ∧ whole (used e) ∧ whole (capacity e).
Proof.
  split; [exact allocate_then_free_calls_ok|]. split; [reflexivity|].
  exact (ledger_calls_keep_bounds allocate_then_free_calls
           (two_ctrl_sim two_switch_topo) allocate_then_free_calls_ok eq_refl
           two_switch_topo_whole).
Defined.

Lemma run_rejects_nonpositive_duration_witness :
  [("sw1", 1, 0%Z)] ∈ zero_duration_workload ∧
  ("sw1", 1, 0%Z) ∈ [("sw1", 1, 0%Z)] ∧ (0 ≤ 0)%Z ∧
  ∃ e, fst (run two_switch_paths false zero_duration_workload
              (two_ctrl_sim two_switch_topo)) = Raise e.
Proof.
  assert ([("sw1", 1, 0%Z)] ∈ zero_duration_workload) as H1 by apply list_elem_of_here.
  assert (("sw1", 1, 0%Z) ∈ [("sw1", 1, 0%Z)]) as H2 by apply list_elem_of_here.
  split; [exact H1|]. split; [exact H2|]. split; [lia|].
  exact (run_rejects_nonpositive_duration two_switch_paths false
           zero_duration_workload (two_ctrl_sim two_switch_topo)
           [("sw1", 1, 0%Z)] "sw1" 1 0%Z H1 H2 (Z.le_refl 0)).
Defined.

Lemma two_ctrl_sim_no_past_flows k :
  is_Some (active_flows (two_ctrl_sim two_switch_topo) !! k) → (0 ≤ k)%Z.
Proof.
  intros [flows Hk]. unfold two_ctrl_sim in Hk. cbn [active_flows] in Hk.
  by rewrite lookup_empty in Hk.
Qed.

Lemma run_leaves_future_flows_witness :
  ∃ all_metrics self',
    run two_switch_paths false single_step_workload (two_ctrl_sim two_switch_topo)
    = (Ok all_metrics, self') ∧
    ∀ k, is_Some (active_flows self' !! k) →
         (Z.of_nat (length single_step_workload) ≤ k)%Z.
Proof.
  destruct run_single_step as (all_metrics & self' & Hrun & _).
  exists all_metrics, self'. split; [exact Hrun|].
  exact (run_leaves_future_flows two_switch_paths false single_step_workload
           (two_ctrl_sim two_switch_topo) all_metrics self'
           two_ctrl_sim_no_past_flows Hrun).
Defined.

Lemma sw1_ctrl_unit_request :
  handle_request two_switch_paths false sw1_ctrl two_switch_topo "sw1" 1 2 =
  Ok (Some ["s2"; "sw2"; "sw1"]).
Proof. by_compute. Qed.

Lemma handle_request_selects_least_witness :
  handle_request two_switch_paths false sw1_ctrl two_switch_topo "sw1" 1 2 =
  Ok (Some ["s2"; "sw2"; "sw1"]) ∧
  ∃ paths,
    map_res (λ srv, two_switch_paths (deref two_switch_topo (ctrl_graph sw1_ctrl))
                      srv "sw1")
            (ctrl_servers sw1_ctrl) = Ok paths ∧
    ∃ l1 l2 bm,
      paths = l1 ++ ["s2"; "sw2"; "sw1"] :: l2 ∧
      path_score false sw1_ctrl (deref two_switch_topo (ctrl_graph sw1_ctrl)) 1
        ["s2"; "sw2"; "sw1"] = Ok bm ∧ bm < 1 ∧
      (∀ q, q ∈ l1 →
            ∃ m, path_score false sw1_ctrl
                   (deref two_switch_topo (ctrl_graph sw1_ctrl)) 1 q = Ok m ∧ bm < m) ∧
      (∀ q, q ∈ l2 →
            ∃ m, path_score false sw1_ctrl
                   (deref two_switch_topo (ctrl_graph sw1_ctrl)) 1 q = Ok m ∧ bm ≤ m).
Proof.
  split; [exact sw1_ctrl_unit_request|].
  exact (handle_request_selects_least two_switch_paths false sw1_ctrl two_switch_topo
           "sw1" 1 2 (Some ["s2"; "sw2"; "sw1"]) sw1_ctrl_unit_request).
Defined.

Lemma handle_request_never_returns_oversubscribed_witness :
  ("s1", "sw1") ∈ links ["s1"; "sw1"; "sw2"] ∧
  considered both_switches_ctrl ("s1", "sw1") ∧
  edge (deref s1_link_full (ctrl_graph both_switches_ctrl)) !! ("s1", "sw1")
  = Some (mk_edge 100 100) ∧
  1 < (used (mk_edge 100 100) + 1) / capacity (mk_edge 100 100) ∧
  handle_request two_switch_paths false both_switches_ctrl s1_link_full "sw2" 1 1
  ≠ Ok (Some ["s1"; "sw1"; "sw2"]).
Proof.
  assert (("s1", "sw1") ∈ links ["s1"; "sw1"; "sw2"]) as Hk by by_compute.
  assert (considered both_switches_ctrl ("s1", "sw1")) as Hcons
    by (unfold considered; by_compute).
  assert (edge (deref s1_link_full (ctrl_graph both_switches_ctrl)) !! ("s1", "sw1")
          = Some (mk_edge 100 100)) as He by by_compute.
  assert (1 < (used (mk_edge 100 100) + 1) / capacity (mk_edge 100 100)) as Hover
    by by_compute.
  split; [exact Hk|]. split; [exact Hcons|]. split; [exact He|]. split; [exact Hover|].
  exact (proj1 handle_request_never_returns_oversubscribed two_switch_paths
           both_switches_ctrl s1_link_full "sw2" 1 1%Z ["s1"; "sw1"; "sw2"]
           ("s1", "sw1") (mk_edge 100 100) Hk Hcons He Hover).
Defined.

Lemma handle_request_unbound_i_fits_witness :
  handle_request two_switch_paths false sw1_ctrl two_switch_topo "sw1" 1 2 =
  Ok (Some ["s2"; "sw2"; "sw1"]) ∧
  ∀ k, k ∈ links ["s2"; "sw2"; "sw1"] → considered sw1_ctrl k →
       ∃ e, edge (deref two_switch_topo (ctrl_graph sw1_ctrl)) !! k = Some e ∧
            capacity e ≠ 0 ∧ (used e + 1) / capacity e < 1.
Proof.
  split; [exact sw1_ctrl_unit_request|].
  exact (handle_request_unbound_i_fits two_switch_paths sw1_ctrl two_switch_topo
           "sw1" 1 2 ["s2"; "sw2"; "sw1"] sw1_ctrl_unit_request).
Defined.

Lemma sw1_ctrl_unseen_link k :
  considered sw1_ctrl k →
  edge (deref two_switch_topo (ctrl_graph sw1_ctrl)) !! k =
  edge (deref (set_used ("s2", "sw2") (Qc_of_Z 50) two_switch_topo)
          (ctrl_graph sw1_ctrl)) !! k.
Proof.
  intros Hk. change (edge two_switch_topo !! k =
    alter (λ e, {| capacity := capacity e; used := Qc_of_Z 50 |}) ("s2", "sw2")
      (edge two_switch_topo) !! k).
  rewrite lookup_alter_ne; [done|]. intros <-.
  destruct Hk as [Hk|Hk]; apply list_elem_of_singleton in Hk; discriminate.
Qed.

Lemma handle_request_reads_considered_links_witness :
  (∀ k, considered sw1_ctrl k →
        edge (deref two_switch_topo (ctrl_graph sw1_ctrl)) !! k =
        edge (deref (set_used ("s2", "sw2") (Qc_of_Z 50) two_switch_topo)
                (ctrl_graph sw1_ctrl)) !! k) ∧
  handle_request two_switch_paths false sw1_ctrl two_switch_topo "sw1" 1 2 =
  handle_request two_switch_paths false sw1_ctrl
    (set_used ("s2", "sw2") (Qc_of_Z 50) two_switch_topo) "sw1" 1 2.
Proof.
  split; [exact sw1_ctrl_unseen_link|].
  exact (handle_request_reads_considered_links two_switch_paths false sw1_ctrl
           two_switch_topo (set_used ("s2", "sw2") (Qc_of_Z 50) two_switch_topo)
           "sw1" 1 2 (λ _ _, eq_refl) sw1_ctrl_unseen_link).
Defined.

